(** * The documentation hooks of niri: [docs/hooks/remove-must-fail.py]
    and [docs/hooks/shortcodes.py].

    Both hooks are one call to Python's [re.sub] on the Markdown text of a
    page.  The development has three layers:

    - [Re]: the fragment of Python's [re] module the two hooks use
      (a backtracking matcher over a pattern syntax tree, the [IGNORECASE]
      comparison of characters, [re.sub] with a template or a callable);
    - [RemoveMustFail] and [Shortcodes]: the two source files;
    - the theorems, stated against descriptions of the behaviour that do
      not mention the matcher (occurrences of a substring up to case,
      decompositions of the text, lines). *)

From Stdlib Require Import Ascii String.
From Stdlib Require Import List NArith Bool Arith Lia.
Import ListNotations.

(** ** Text

    A Python [str] is a sequence of Unicode code points. *)

Abbreviation codepoint := N (only parsing).
Abbreviation str := (list N) (only parsing).

(** A literal of the source, written as a Rocq string of ASCII characters. *)
Definition py (s : string) : str := map N_of_ascii (list_ascii_of_string s).

Definition NEWLINE : codepoint := 10%N.
Definition QUOTE : codepoint := 34%N.

(** ** Exceptions

    The only exception a hook could raise is the [IndexError] of
    [matches[0]] or [matches[1]] in [replace]. *)

Inductive exn := IndexError.

Inductive result (A : Type) :=
| Ok (a : A)
| Raise (e : exn).

Arguments Ok {A} a.
Arguments Raise {A} e.

Definition bind {A B} (x : result A) (f : A -> result B) : result B :=
  match x with
  | Ok a => f a
  | Raise e => Raise e
  end.

Notation "x <- c1 ;; c2" := (bind c1 (fun x => c2))
  (at level 61, c1 at next level, right associativity).

(** A Python value as the hooks see one: [None] or a [str]. *)
Inductive value :=
| VNone
| VStr (s : str).

(** [f"{v}"]: how an f-string renders a value. *)
Definition format (v : value) : str :=
  match v with
  | VNone => py "None"
  | VStr s => s
  end.

Definition str_eqb (a b : str) : bool :=
  if list_eq_dec N.eq_dec a b then true else false.

(** [v == "literal"] *)
Definition value_eq_str (v : value) (lit : str) : bool :=
  match v with
  | VNone => false
  | VStr s => str_eqb s lit
  end.

(** ** The fragment of [re] used by the hooks *)

Module Re.

Record flags := Flags {
  IGNORECASE : bool;   (* re.I *)
  MULTILINE : bool;    (* re.M: changes [^] and [$] only             *)
  DOTALL : bool        (* re.S: lets [.] match a newline             *)
}.

(** [re.I | re.M] *)
Definition I_M : flags := Flags true true false.

(** Pattern syntax: what the two patterns are built from.  Groups carry
    their index (0-based, as in [match.groups()]). *)
Inductive regex :=
| Empty
| Lit (c : codepoint)
| Any                          (* .   *)
| Seq (r1 r2 : regex)
| Alt (r1 r2 : regex)          (* r1|r2 *)
| Group (i : nat) (r : regex)  (* (r) *)
| MinStar (r : regex).         (* r*? *)

(** The literal characters of [s] in sequence. *)
Fixpoint lits (s : str) : regex :=
  match s with
  | [] => Empty
  | c :: s' => Seq (Lit c) (lits s')
  end.

Fixpoint ngroups (r : regex) : nat :=
  match r with
  | Empty | Lit _ | Any => 0
  | Seq r1 r2 | Alt r1 r2 => ngroups r1 + ngroups r2
  | Group _ r1 => S (ngroups r1)
  | MinStar r1 => ngroups r1
  end.

(** *** Characters under [IGNORECASE]

    [sre_lower_unicode]: the simple lower-case mapping.  The table is
    given where the argument or the result is an ASCII letter: the
    capitals, U+0130 (capital I with dot above, lower case [i]) and
    U+212A (Kelvin sign, lower case [k]); patterns here have ASCII
    characters only. *)
Definition lower (c : codepoint) : codepoint :=
  (if (65 <=? c) && (c <=? 90) then c + 32
   else if c =? 304 then 105
   else if c =? 8490 then 107
   else c)%N.

(** The extra cases of [re._casefix] that involve an ASCII letter:
    dotless i (U+0131) with [i], long s (U+017F) with [s]. *)
Definition extra_cases (lo : codepoint) : list codepoint :=
  (if lo =? 105 then [305]
   else if lo =? 115 then [383]
   else if lo =? 305 then [105]
   else if lo =? 383 then [115]
   else [])%N.

(** Does the pattern character [x] accept the text character [c]? *)
Definition lit_match (fl : flags) (x c : codepoint) : bool :=
  if IGNORECASE fl then
    let lo := lower x in
    let ch := lower c in
    (ch =? lo)%N || existsb (N.eqb ch) (extra_cases lo)
  else (c =? x)%N.

(** Does [.] accept [c]? *)
Definition any_match (fl : flags) (c : codepoint) : bool :=
  DOTALL fl || negb (c =? NEWLINE)%N.

(** *** Captures *)

Definition groups := list value.

Fixpoint set_group (i : nat) (v : value) (g : groups) : groups :=
  match g, i with
  | [], _ => []
  | _ :: g', 0 => v :: g'
  | x :: g', S i' => x :: set_group i' v g'
  end.

(** *** The backtracking matcher

    [m r s g k] matches [r] at the head of [s] with captures [g] and
    hands the rest of the text and the captures to the continuation
    [k]; when [k] fails the matcher backtracks into [r].  An
    alternation tries its left branch first, [r*?] tries to stop
    first. *)
Section Matcher.
Variable fl : flags.
Variable A : Type.

Definition cont := str -> groups -> option A.

(** [r*?]: [n] bounds the number of iterations; an iteration that
    consumes nothing is refused, as in [sre]. *)
Fixpoint min_loop (step : str -> groups -> cont -> option A) (k : cont)
         (n : nat) (s : str) (g : groups) : option A :=
  match k s g with
  | Some a => Some a
  | None =>
      match n with
      | 0 => None
      | S n' =>
          step s g (fun s' g' =>
            if length s' <? length s then min_loop step k n' s' g'
            else None)
      end
  end.

Fixpoint m (r : regex) (s : str) (g : groups) (k : cont) : option A :=
  match r with
  | Empty => k s g
  | Lit x =>
      match s with
      | c :: s' => if lit_match fl x c then k s' g else None
      | [] => None
      end
  | Any =>
      match s with
      | c :: s' => if any_match fl c then k s' g else None
      | [] => None
      end
  | Seq r1 r2 => m r1 s g (fun s' g' => m r2 s' g' k)
  | Alt r1 r2 =>
      match m r1 s g k with
      | Some a => Some a
      | None => m r2 s g k
      end
  | Group i r1 =>
      m r1 s g (fun s' g' =>
        k s' (set_group i (VStr (firstn (length s - length s') s)) g'))
  | MinStar r1 => min_loop (m r1) k (length s) s g
  end.
End Matcher.

Arguments min_loop {A} step k n s g.
Arguments m fl {A} r s g k.

(** A match at the head of [s]: the captures and the number of
    characters matched. *)
Definition match_here (fl : flags) (r : regex) (s : str)
  : option (groups * nat) :=
  m fl r s (repeat VNone (ngroups r))
    (fun s' g => Some (g, length s - length s')).

(** *** [re.sub]

    The replacement is a template string or a callable on the match;
    the callable of [shortcodes.py] reads [match.groups()] only, so a
    callable takes the captures.  A template here has no backslash
    escape and stands for itself. *)
Inductive repl :=
| Template (t : str)
| Callable (f : groups -> result str).

Definition expand (rp : repl) (g : groups) : result str :=
  match rp with
  | Template t => Ok t
  | Callable f => f g
  end.

(** The scan of [re.sub]: [skip] characters of [s] still belong to the
    match found last.  Outside a match the pattern is tried at every
    position from left to right; a match is replaced and the scan
    goes on after it; an empty match is replaced and the next character
    copied. *)
Fixpoint sub_from (fl : flags) (r : regex) (rp : repl) (skip : nat)
         (s : str) : result str :=
  match s with
  | [] =>
      match skip, match_here fl r [] with
      | 0, Some (g, _) => expand rp g
      | _, _ => Ok []
      end
  | c :: s' =>
      match skip with
      | S n => sub_from fl r rp n s'
      | 0 =>
          match match_here fl r s with
          | None =>
              out <- sub_from fl r rp 0 s' ;;
              Ok (c :: out)
          | Some (g, 0) =>
              t <- expand rp g ;;
              out <- sub_from fl r rp 0 s' ;;
              Ok (t ++ c :: out)
          | Some (g, S n) =>
              t <- expand rp g ;;
              out <- sub_from fl r rp n s' ;;
              Ok (t ++ out)
          end
      end
  end.

(** [re.sub(pattern, repl, string, flags=flags)] *)
Definition sub (r : regex) (rp : repl) (s : str) (fl : flags)
  : result str :=
  sub_from fl r rp 0 s.

End Re.

(** ** [docs/hooks/remove-must-fail.py] *)

Module RemoveMustFail.

(** [r",must-fail"] *)
Definition pattern : Re.regex := Re.lits (py ",must-fail").

Definition on_page_markdown {Page Config Files : Type}
    (markdown : str) (page : Page) (config : Config) (files : Files)
  : result str :=
  Re.sub pattern (Re.Template []) markdown Re.I_M.

End RemoveMustFail.

(** ** [docs/hooks/shortcodes.py] *)

Module Shortcodes.

(** [r"<sup>(Until|Since): (.*?)</sup>"] *)
Definition pattern : Re.regex :=
  Re.Seq (Re.lits (py "<sup>"))
 (Re.Seq (Re.Group 0 (Re.Alt (Re.lits (py "Until")) (Re.lits (py "Since"))))
 (Re.Seq (Re.lits (py ": "))
 (Re.Seq (Re.Group 1 (Re.MinStar Re.Any))
         (Re.lits (py "</sup>"))))).

(** [<span class="badge">] *)
Definition span_open : str :=
  py "<span class=" ++ [QUOTE] ++ py "badge" ++ [QUOTE] ++ py ">".

Definition _badge_for_version (preposition version : value) : str :=
  if value_eq_str version (py "next release") then
    span_open ++ format preposition ++ py ": " ++ format version
      ++ py "</span>"
  else
    let path :=
      py "https://github.com/YaLTeR/niri/releases/tag/v" ++ format version in
    span_open ++ py "[" ++ format preposition ++ py ": " ++ format version
      ++ py "](" ++ path ++ py ")</span>".

(** The inner function [replace]: [matches[0]] and [matches[1]] raise
    [IndexError] on a tuple that is too short. *)
Definition replace (matches : Re.groups) : result str :=
  match nth_error matches 0, nth_error matches 1 with
  | Some preposition, Some version =>
      Ok (_badge_for_version preposition version)
  | _, _ => Raise IndexError
  end.

Definition on_page_markdown {Page Config Files : Type}
    (markdown : str) (page : Page) (config : Config) (files : Files)
  : result str :=
  Re.sub pattern (Re.Callable replace) markdown Re.I_M.

End Shortcodes.

(** The two hooks as the build pipeline composes them: the text a hook
    returns is the text the next one receives. *)
Definition AnnotationStripper (s : str) : result str :=
  RemoveMustFail.on_page_markdown s tt tt tt.

Definition BadgeRenderer (s : str) : result str :=
  Shortcodes.on_page_markdown s tt tt tt.

(** ** Describing the behaviour

    The notions the statements are written in.  None of them mentions
    the matcher. *)

(** Two characters are the same up to case when they fold to the same
    character: a capital folds to its small letter; dotted capital I and
    dotless i fold to [i], long s to [s], the Kelvin sign to [k]. *)
Definition casefold (c : codepoint) : codepoint :=
  (if (65 <=? c) && (c <=? 90) then c + 32
   else if (c =? 304) || (c =? 305) then 105
   else if c =? 383 then 115
   else if c =? 8490 then 107
   else c)%N.

Definition eq_nocase (a b : str) : Prop := map casefold a = map casefold b.

(** [s] starts with [p] up to case. *)
Fixpoint starts_nocase (p s : str) : bool :=
  match p, s with
  | [], _ => true
  | _ :: _, [] => false
  | x :: p', c :: s' => (casefold x =? casefold c)%N && starts_nocase p' s'
  end.

(** [p] occurs somewhere in [s] up to case. *)
Fixpoint contains_nocase (p s : str) : bool :=
  starts_nocase p s ||
  match s with
  | [] => false
  | _ :: s' => contains_nocase p s'
  end.

Definition occurs_at (p s : str) : Prop :=
  exists w rest, s = w ++ rest /\ eq_nocase p w.

Definition occurs (p s : str) : Prop :=
  exists pre, exists rest, s = pre ++ rest /\ occurs_at p rest.

(** *** The annotation of the stripper *)

Definition MUST_FAIL : str := py ",must-fail".

(** [deleted_all p s out]: [out] is [s] with the occurrences of [p] up
    to case deleted, taken from left to right without overlap, and every
    other character kept. *)
Inductive deleted_all (p : str) : str -> str -> Prop :=
| deleted_nil : deleted_all p [] []
| deleted_hit w rest out :
    eq_nocase p w ->
    deleted_all p rest out ->
    deleted_all p (w ++ rest) out
| deleted_keep c s out :
    ~ occurs_at p (c :: s) ->
    deleted_all p s out ->
    deleted_all p (c :: s) (c :: out).

(** *** The annotations of the badge renderer *)

Definition SUP_OPEN : str := py "<sup>".
Definition SUP_CLOSE : str := py "</sup>".
Definition NEXT_RELEASE : str := py "next release".

(** [o ++ p ++ ": " ++ v ++ c] is in the language of the badge pattern:
    [o] and [c] are the tags up to case, [p] is [Until] or [Since] up to
    case, and the version [v] stays on one line. *)
Definition annotation (o p v c : str) : Prop :=
  eq_nocase SUP_OPEN o /\
  (eq_nocase (py "Until") p \/ eq_nocase (py "Since") p) /\
  ~ In NEWLINE v /\
  eq_nocase SUP_CLOSE c.

(** The capture is not greedy: [c] is the first closing tag. *)
Definition first_close (v c : str) : Prop :=
  ~ occurs SUP_CLOSE (v ++ removelast c).

Definition annotation_at (s : str) : Prop :=
  exists o p v c rest,
    s = o ++ p ++ py ": " ++ v ++ c ++ rest /\ annotation o p v c.

(** The two forms of a badge, as the documentation of the hook gives
    them. *)
Definition unlinked_badge (p v : str) : str :=
  py "<span class=" ++ [QUOTE] ++ py "badge" ++ [QUOTE] ++ py ">"
    ++ p ++ py ": " ++ v ++ py "</span>".

Definition linked_badge (p v : str) : str :=
  py "<span class=" ++ [QUOTE] ++ py "badge" ++ [QUOTE] ++ py ">["
    ++ p ++ py ": " ++ v
    ++ py "](https://github.com/YaLTeR/niri/releases/tag/v" ++ v
    ++ py ")</span>".

Definition badge (p v : str) : str :=
  if str_eqb v NEXT_RELEASE then unlinked_badge p v else linked_badge p v.

(** [rendered s out]: [out] is [s] with the annotations replaced by
    their badges, taken from left to right without overlap, and every
    other character kept. *)
Inductive rendered : str -> str -> Prop :=
| rendered_nil : rendered [] []
| rendered_hit o p v c rest out :
    annotation o p v c ->
    first_close v c ->
    rendered rest out ->
    rendered (o ++ p ++ py ": " ++ v ++ c ++ rest) (badge p v ++ out)
| rendered_keep ch s out :
    ~ annotation_at (ch :: s) ->
    rendered s out ->
    rendered (ch :: s) (ch :: out).

(** An annotation occurs somewhere in [s]. *)
Definition has_annotation (s : str) : Prop :=
  exists pre rest, s = pre ++ rest /\ annotation_at rest.

(** *** Lines *)

(** The lines of a text, without their newlines; a text that ends in a
    newline has an empty last line. *)
Fixpoint lines (s : str) : list str :=
  match s with
  | [] => [[]]
  | c :: s' =>
      if (c =? NEWLINE)%N then [] :: lines s'
      else
        match lines s' with
        | l :: ls => (c :: l) :: ls
        | [] => [[c]]
        end
  end.

(** A line on which the two hooks cannot meet: [,must-fail] does not
    occur on it, or it has no [<]. *)
Definition separate (l : str) : bool :=
  negb (contains_nocase MUST_FAIL l) || negb (existsb (N.eqb 60) l).

(** ** The scan of [re.sub] with the matcher abstracted

    [at_head s] is the replacement text and the length of the match at
    the head of [s], when there is one. *)
Section Scan.
Variable at_head : str -> option (str * nat).

Fixpoint scan (skip : nat) (s : str) : str :=
  match s with
  | [] =>
      match skip, at_head [] with
      | 0, Some (t, _) => t
      | _, _ => []
      end
  | c :: s' =>
      match skip with
      | S n => scan n s'
      | 0 =>
          match at_head s with
          | None => c :: scan 0 s'
          | Some (t, 0) => t ++ c :: scan 0 s'
          | Some (t, S n) => t ++ scan n s'
          end
      end
  end.
End Scan.

(** The match of each pattern at the head of a text, computed directly. *)
Definition strip_at (s : str) : option (str * nat) :=
  if starts_nocase MUST_FAIL s then Some ([], 10) else None.

(** The version up to the first closing tag on the line. *)
Fixpoint find_close (s : str) : option str :=
  if starts_nocase SUP_CLOSE s then Some []
  else
    match s with
    | [] => None
    | c :: s' =>
        if (c =? NEWLINE)%N then None
        else option_map (cons c) (find_close s')
    end.

Definition badge_parts (s : str) : option (str * str) :=
  if starts_nocase SUP_OPEN s then
    let s1 := skipn 5 s in
    if starts_nocase (py "Until") s1 || starts_nocase (py "Since") s1 then
      if starts_nocase (py ": ") (skipn 5 s1) then
        match find_close (skipn 7 s1) with
        | Some v => Some (firstn 5 s1, v)
        | None => None
        end
      else None
    else None
  else None.

Definition badge_at (s : str) : option (str * nat) :=
  match badge_parts s with
  | Some (p, v) => Some (badge p v, 18 + length v)
  | None => None
  end.

Fixpoint contains_badge (s : str) : bool :=
  match badge_parts s with
  | Some _ => true
  | None =>
      match s with
      | [] => false
      | _ :: s' => contains_badge s'
      end
  end.

(** No character of [p] is [x] up to case: an occurrence of [p] cannot
    run over [x]. *)
Definition breaks (x : codepoint) (p : str) : bool :=
  forallb (fun y => negb (casefold y =? casefold x)%N) p.

(** The characters of a pattern are ASCII. *)
Definition ascii_only (p : str) : Prop := Forall (fun x => (x < 128)%N) p.

(** [s] starts with an opening tag, a preposition and [": "], up to
    case: the twelve characters in front of a version. *)
Definition opens (s : str) : bool :=
  starts_nocase SUP_OPEN s &&
  (starts_nocase (py "Until") (skipn 5 s)
   || starts_nocase (py "Since") (skipn 5 s)) &&
  starts_nocase (py ": ") (skipn 10 s).

(** No annotation is left open at the end of [s]: wherever an opening
    tag with a preposition stands in [s], a newline or a closing tag
    follows it inside [s]. *)
Fixpoint none_open (s : str) : bool :=
  (negb (opens s)
   || existsb (N.eqb NEWLINE) (skipn 12 s)
   || contains_nocase SUP_CLOSE (skipn 12 s)) &&
  match s with
  | [] => true
  | _ :: s' => none_open s'
  end.

(** [subseq a b]: [a] is [b] with some characters left out. *)
Inductive subseq : str -> str -> Prop :=
| subseq_nil : subseq [] []
| subseq_keep c a b : subseq a b -> subseq (c :: a) (c :: b)
| subseq_drop c a b : subseq a b -> subseq a (c :: b).

(** The stripper run [n] times in a row, each pass on the text the
    pass before returned. *)
Fixpoint strip_passes (n : nat) (s : str) : result str :=
  match n with
  | 0 => Ok s
  | S n' => out <- AnnotationStripper s ;; strip_passes n' out
  end.

(** The case of a character: its lower case in [re] and its fold. *)
Inductive char_class (c : codepoint) : codepoint -> codepoint -> Prop :=
| class_capital : (65 <= c <= 90)%N -> char_class c (c + 32)%N (c + 32)%N
| class_dotted : c = 304%N -> char_class c 105%N 105%N
| class_dotless : c = 305%N -> char_class c 305%N 105%N
| class_long_s : c = 383%N -> char_class c 383%N 115%N
| class_kelvin : c = 8490%N -> char_class c 107%N 107%N
| class_other :
    ~ (65 <= c <= 90)%N -> c <> 304%N -> c <> 305%N -> c <> 383%N ->
    c <> 8490%N -> char_class c c c.

(** * Proofs *)

(** ** Characters *)

Ltac split_tests :=
  repeat (cbn [andb orb negb existsb] in *;
          match goal with
          | |- context [N.eqb ?a ?b] => destruct (N.eqb_spec a b)
          | |- context [N.leb ?a ?b] => destruct (N.leb_spec a b)
          | H : context [N.eqb ?a ?b] |- _ => destruct (N.eqb_spec a b)
          | H : context [N.leb ?a ?b] |- _ => destruct (N.leb_spec a b)
          end);
  cbn [andb orb negb existsb] in *.

Lemma char_class_spec (c : codepoint) :
  char_class c (Re.lower c) (casefold c).
Proof.
  unfold Re.lower, casefold.
  destruct (N.leb_spec 65 c), (N.leb_spec c 90); cbn [andb];
    try (apply class_capital; lia).
  - destruct (N.eqb_spec c 304); [subst; now apply class_dotted|].
    destruct (N.eqb_spec c 305); [subst; now apply class_dotless|].
    destruct (N.eqb_spec c 383); [subst; now apply class_long_s|].
    destruct (N.eqb_spec c 8490); [subst; now apply class_kelvin|].
    cbn [orb]. apply class_other; lia.
  - destruct (N.eqb_spec c 304); [lia|].
    destruct (N.eqb_spec c 305); [lia|].
    destruct (N.eqb_spec c 383); [lia|].
    destruct (N.eqb_spec c 8490); [lia|].
    cbn [orb]. apply class_other; lia.
  - lia.
Qed.

(** On an ASCII pattern character, [IGNORECASE] is equality up to case. *)
Lemma lit_match_casefold (x c : codepoint) :
  (x < 128)%N ->
  Re.lit_match Re.I_M x c = (casefold x =? casefold c)%N.
Proof.
  intros Hx. unfold Re.lit_match. cbn [Re.IGNORECASE Re.I_M].
  destruct (char_class_spec x) as [Hr| | | | |Hr ? ? ? ?]; try lia;
    destruct (char_class_spec c) as [Hc| | | | |Hc ? ? ? ?]; subst;
    unfold Re.extra_cases; split_tests; try reflexivity; try lia.
Qed.

(** ** Prefixes up to case *)

Lemma starts_nocase_length (p s : str) :
  starts_nocase p s = true -> length p <= length s.
Proof.
  revert s. induction p as [|x p IH]; intros [|c s]; cbn; try lia;
    try discriminate.
  intros H. apply andb_true_iff in H as [_ H]. apply IH in H. lia.
Qed.

Lemma starts_nocase_app (p s t : str) :
  starts_nocase p s = true -> starts_nocase p (s ++ t) = true.
Proof.
  revert s. induction p as [|x p IH]; intros [|c s]; cbn; try easy.
  intros H. apply andb_true_iff in H as [-> H]. cbn. now apply IH.
Qed.

Lemma starts_nocase_eq (p s : str) :
  starts_nocase p s = true <->
  exists w rest, s = w ++ rest /\ eq_nocase p w.
Proof.
  unfold eq_nocase. revert s. induction p as [|x p IH]; intros s; cbn.
  - split; [|easy]. intros _. now exists [], s.
  - destruct s as [|c s].
    + split; [easy|]. intros ([|? ?] & rest & H1 & H2); cbn in *; easy.
    + rewrite andb_true_iff, IH, N.eqb_eq. split.
      * intros (Hc & w & rest & -> & Hw). exists (c :: w), rest. cbn.
        split; [easy|]. now rewrite Hc, Hw.
      * intros ([|c' w] & rest & H1 & H2); cbn in *; [easy|].
        injection H1 as -> ->. injection H2 as Hc Hw.
        split; [easy|]. now exists w, rest.
Qed.

Lemma occurs_at_starts (p s : str) :
  occurs_at p s <-> starts_nocase p s = true.
Proof. unfold occurs_at. now rewrite starts_nocase_eq. Qed.

Lemma eq_nocase_length (a b : str) : eq_nocase a b -> length a = length b.
Proof.
  unfold eq_nocase. intros H.
  now rewrite <- (length_map casefold a), H, length_map.
Qed.

Lemma eq_nocase_starts (p w rest : str) :
  eq_nocase p w -> starts_nocase p (w ++ rest) = true.
Proof. intros H. apply starts_nocase_eq. now exists w, rest. Qed.

Lemma starts_nocase_split (p s : str) :
  starts_nocase p s = true ->
  eq_nocase p (firstn (length p) s) /\
  s = firstn (length p) s ++ skipn (length p) s.
Proof.
  intros H. split; [|now rewrite firstn_skipn].
  apply starts_nocase_eq in H as (w & rest & -> & Hw).
  rewrite (eq_nocase_length _ _ Hw), firstn_app, Nat.sub_diag, firstn_all.
  cbn. now rewrite app_nil_r.
Qed.

(** ** The matcher on a literal *)

Lemma ascii_only_check (p : str) :
  forallb (fun x => (x <? 128)%N) p = true -> ascii_only p.
Proof.
  intros H. apply Forall_forall. intros x Hx.
  rewrite forallb_forall in H. now apply N.ltb_lt, H.
Qed.

Ltac ascii := apply ascii_only_check; reflexivity.

Lemma m_lits A (p s : str) (g : Re.groups) (k : Re.cont A) :
  ascii_only p ->
  Re.m Re.I_M (Re.lits p) s g k =
  if starts_nocase p s then k (skipn (length p) s) g else None.
Proof.
  intros Hp. revert s.
  induction Hp as [|x p Hx Hp IH]; intros s;
    cbn [Re.m Re.lits starts_nocase length skipn].
  - reflexivity.
  - destruct s as [|c s]; [reflexivity|].
    rewrite (lit_match_casefold x c Hx).
    destruct (casefold x =? casefold c)%N; cbn; [apply IH | reflexivity].
Qed.

(** ** The two patterns at the head of a text *)

Lemma match_here_must_fail (s : str) :
  Re.match_here Re.I_M RemoveMustFail.pattern s =
  if starts_nocase MUST_FAIL s then Some ([], 10) else None.
Proof.
  unfold Re.match_here, RemoveMustFail.pattern. rewrite m_lits by ascii.
  fold MUST_FAIL. destruct (starts_nocase MUST_FAIL s) eqn:H; [|reflexivity].
  apply starts_nocase_length in H. rewrite length_skipn.
  change (length MUST_FAIL) with 10 in *. do 2 f_equal. lia.
Qed.

Lemma find_close_spec (s v : str) :
  find_close s = Some v ->
  s = v ++ skipn (length v) s /\
  starts_nocase SUP_CLOSE (skipn (length v) s) = true /\
  ~ In NEWLINE v.
Proof.
  revert v. induction s as [|c s IH]; intros v.
  - cbn. discriminate.
  - cbn [find_close]. destruct (starts_nocase SUP_CLOSE (c :: s)) eqn:Hs.
    + intros [= <-]. cbn. auto.
    + destruct (N.eqb_spec c NEWLINE) as [|Hc]; [discriminate|].
      destruct (find_close s) as [v'|]; [|discriminate].
      intros [= <-]. destruct (IH v' eq_refl) as (H1 & H2 & H3).
      cbn. repeat split; [now f_equal | easy |]. intros [H|H]; auto.
Qed.

(** The loop of [.*?] in front of a continuation that tests for the
    closing tag. *)
Lemma min_loop_any A (k : Re.cont A) (h : str -> A) (g : Re.groups) :
  (forall s', k s' g = if starts_nocase SUP_CLOSE s' then Some (h s') else None) ->
  forall (s : str) (n : nat),
    length s <= n ->
    Re.min_loop (Re.m Re.I_M Re.Any) k n s g =
    option_map (fun v => h (skipn (length v) s)) (find_close s).
Proof.
  intros Hk. induction s as [|c s IH]; intros n Hn.
  - destruct n; cbn [Re.min_loop find_close]; rewrite Hk;
      destruct (starts_nocase SUP_CLOSE []); reflexivity.
  - destruct n as [|n]; [cbn in Hn; lia|].
    cbn [Re.min_loop find_close]. rewrite Hk.
    destruct (starts_nocase SUP_CLOSE (c :: s)); [reflexivity|].
    cbn [Re.m]. unfold Re.any_match. cbn [Re.DOTALL Re.I_M orb].
    destruct (c =? NEWLINE)%N; cbn [negb]; [reflexivity|].
    assert ((length s <? length (c :: s)) = true) as ->
        by (apply Nat.ltb_lt; cbn; lia).
    rewrite IH by (cbn in Hn; lia).
    destruct (find_close s); reflexivity.
Qed.

Lemma match_here_badge (s : str) :
  Re.match_here Re.I_M Shortcodes.pattern s =
  match badge_parts s with
  | Some (p, v) => Some ([VStr p; VStr v], 18 + length v)
  | None => None
  end.
Proof.
  unfold Re.match_here, Shortcodes.pattern, badge_parts.
  cbn [Re.m]. rewrite m_lits by ascii. fold SUP_OPEN SUP_CLOSE.
  destruct (starts_nocase SUP_OPEN s) eqn:H0; [|reflexivity].
  change (length SUP_OPEN) with 5.
  set (s1 := skipn 5 s).
  assert (length s = 5 + length s1) as Hl1.
  { subst s1. rewrite length_skipn. apply starts_nocase_length in H0.
    change (length SUP_OPEN) with 5 in H0. lia. }
  rewrite !m_lits by ascii.
  change (length (py "Until")) with 5. change (length (py "Since")) with 5.
  change (length (py ": ")) with 2.
  set (s2 := skipn 5 s1).
  assert (skipn 2 s2 = skipn 7 s1) as Hs3 by (subst s2; now rewrite skipn_skipn).
  rewrite Hs3. set (s3 := skipn 7 s1).
  assert (firstn (length s1 - length s2) s1 = firstn 5 s1) as ->.
  { subst s2. rewrite length_skipn.
    destruct (Nat.le_gt_cases 5 (length s1)) as [Hle|Hgt].
    - f_equal. lia.
    - rewrite !firstn_all2 by lia. reflexivity. }
  match goal with
  | |- context [Re.min_loop ?a ?b ?c ?d ?e] => set (X := Re.min_loop a b c d e)
  end.
  assert (X = match find_close s3 with
              | Some v => Some ([VStr (firstn 5 s1); VStr v], 18 + length v)
              | None => None
              end) as ->.
  { subst X.
    rewrite (min_loop_any _ _
      (fun s' => ([VStr (firstn 5 s1); VStr (firstn (length s3 - length s') s3)],
                  length s - length (skipn 6 s')))).
    - destruct (find_close s3) as [v|] eqn:Hv; [|reflexivity].
      apply find_close_spec in Hv as (Hv1 & Hv2 & _).
      apply starts_nocase_length in Hv2. change (length SUP_CLOSE) with 6 in Hv2.
      cbn [option_map]. rewrite !length_skipn in *.
      assert (length s3 = length s1 - 7) by (subst s3; apply length_skipn).
      assert (firstn (length s3 - (length s3 - length v)) s3 = v) as ->.
      { replace (length s3 - (length s3 - length v)) with (length v) by lia.
        rewrite Hv1, firstn_app, firstn_all, Nat.sub_diag.
        cbn. now rewrite app_nil_r. }
      do 2 f_equal. lia.
    - intros s'. rewrite m_lits by ascii. reflexivity.
    - lia. }
  destruct (starts_nocase (py "Until") s1), (starts_nocase (py "Since") s1),
    (starts_nocase (py ": ") s2), (find_close s3); reflexivity.
Qed.


(** ** [re.sub] as a scan *)

Lemma sub_from_scan (fl : Re.flags) (r : Re.regex) (rp : Re.repl)
      (f : str -> option (str * nat)) :
  (forall s,
      match Re.match_here fl r s with
      | Some (g, n) => exists t, Re.expand rp g = Ok t /\ f s = Some (t, n)
      | None => f s = None
      end) ->
  forall s skip, Re.sub_from fl r rp skip s = Ok (scan f skip s).
Proof.
  intros Hf. induction s as [|c s IH]; intros skip.
  - cbn. specialize (Hf []). destruct skip; [|reflexivity].
    destruct (Re.match_here fl r []) as [[g n]|].
    + destruct Hf as (t & -> & ->). reflexivity.
    + now rewrite Hf.
  - cbn [Re.sub_from scan]. destruct skip as [|n]; [|apply IH].
    specialize (Hf (c :: s)).
    destruct (Re.match_here fl r (c :: s)) as [[g n]|].
    + destruct Hf as (t & -> & ->). destruct n; cbn; now rewrite IH.
    + rewrite Hf, IH. reflexivity.
Qed.

Lemma stripper_scan (s : str) :
  AnnotationStripper s = Ok (scan strip_at 0 s).
Proof.
  unfold AnnotationStripper, RemoveMustFail.on_page_markdown, Re.sub.
  apply sub_from_scan. intros t. rewrite match_here_must_fail.
  unfold strip_at. destruct (starts_nocase MUST_FAIL t); [|reflexivity].
  now exists [].
Qed.

Lemma badge_for_version_str (p v : str) :
  Shortcodes._badge_for_version (VStr p) (VStr v) = badge p v.
Proof.
  unfold Shortcodes._badge_for_version, badge, unlinked_badge, linked_badge,
    Shortcodes.span_open, value_eq_str, format, NEXT_RELEASE.
  destruct (str_eqb v (py "next release")); now rewrite <- ?app_assoc.
Qed.

Lemma renderer_scan (s : str) :
  BadgeRenderer s = Ok (scan badge_at 0 s).
Proof.
  unfold BadgeRenderer, Shortcodes.on_page_markdown, Re.sub.
  apply sub_from_scan. intros t. rewrite match_here_badge.
  unfold badge_at. destruct (badge_parts t) as [[p v]|]; [|reflexivity].
  exists (badge p v). split; [|reflexivity].
  cbn. now rewrite badge_for_version_str.
Qed.

(** ** The scan *)

Section ScanFacts.
Variable f : str -> option (str * nat).

(** A match is not empty and lies inside the text. *)
Hypothesis f_len : forall s t n, f s = Some (t, n) -> 0 < n <= length s.

Lemma f_nil : f [] = None.
Proof.
  destruct (f []) as [[t n]|] eqn:H; [|reflexivity].
  apply f_len in H. cbn in H. lia.
Qed.

Lemma scan_nil (skip : nat) : scan f skip [] = [].
Proof. cbn. rewrite f_nil. now destruct skip. Qed.

Lemma scan_skip (s : str) (n : nat) :
  n <= length s -> scan f n s = scan f 0 (skipn n s).
Proof.
  revert n. induction s as [|c s IH]; intros [|n] Hn; try reflexivity.
  - cbn in Hn. lia.
  - cbn [scan skipn]. apply IH. cbn in Hn. lia.
Qed.

Lemma scan_miss (c : codepoint) (s : str) :
  f (c :: s) = None -> scan f 0 (c :: s) = c :: scan f 0 s.
Proof. intros H. cbn. now rewrite H. Qed.

Lemma scan_hit (w rest t : str) :
  f (w ++ rest) = Some (t, length w) ->
  scan f 0 (w ++ rest) = t ++ scan f 0 rest.
Proof.
  intros H. pose proof (f_len _ _ _ H) as [Hpos _].
  destruct w as [|c w]; [cbn in Hpos; lia|].
  cbn [app scan length] in *. rewrite H. f_equal.
  rewrite scan_skip by (rewrite length_app; lia).
  now rewrite skipn_app, skipn_all, Nat.sub_diag.
Qed.

(** Nothing matches: the text is returned as it is. *)
Lemma scan_none (s : str) :
  (forall i, f (skipn i s) = None) -> scan f 0 s = s.
Proof.
  induction s as [|c s IH]; intros H.
  - apply scan_nil.
  - rewrite scan_miss by apply (H 0). f_equal. apply IH.
    intros i. apply (H (S i)).
Qed.

(** Nothing matches from a position in [a]: [a] is copied. *)
Lemma scan_app_none (a b : str) :
  (forall i, i < length a -> f (skipn i (a ++ b)) = None) ->
  scan f 0 (a ++ b) = a ++ scan f 0 b.
Proof.
  induction a as [|c a IH]; intros H; [reflexivity|].
  cbn [app]. rewrite scan_miss by (apply (H 0); cbn; lia).
  f_equal. apply IH. intros i Hi. apply (H (S i)). cbn. lia.
Qed.

Lemma scan_length (s : str) (n : nat) :
  (forall s t n, f s = Some (t, n) -> length t <= n) ->
  length (scan f n s) <= length s - n.
Proof.
  intros Hshort. revert n. induction s as [|c s IH]; intros n.
  - rewrite scan_nil. cbn. lia.
  - cbn [scan]. destruct n as [|n].
    + destruct (f (c :: s)) as [[t [|k]]|] eqn:Hf.
      * apply f_len in Hf. lia.
      * pose proof (Hshort _ _ _ Hf). apply f_len in Hf.
        rewrite length_app. specialize (IH k). cbn [length] in *. lia.
      * cbn [length]. specialize (IH 0). lia.
    + specialize (IH n). cbn [length]. lia.
Qed.

(** *** Lines

    When a match never reaches a newline, a text is transformed line
    by line. *)
Hypothesis f_line : forall a b, f (a ++ NEWLINE :: b) = f a.

Lemma scan_newline_from (a b : str) (n : nat) :
  n <= length a ->
  scan f n (a ++ NEWLINE :: b) = scan f n a ++ NEWLINE :: scan f 0 b.
Proof.
  revert n. induction a as [|c a IH]; intros n Hn.
  - cbn in Hn. assert (n = 0) as -> by lia.
    rewrite scan_nil. cbn [app].
    rewrite scan_miss; [reflexivity|].
    rewrite <- (app_nil_l (NEWLINE :: b)), f_line. apply f_nil.
  - cbn [app scan]. destruct n as [|n].
    + rewrite (app_comm_cons a (NEWLINE :: b) c), f_line.
      destruct (f (c :: a)) as [[t [|k]]|] eqn:Hf.
      * apply f_len in Hf. lia.
      * apply f_len in Hf. cbn in Hf.
        rewrite IH by lia. now rewrite app_assoc.
      * rewrite IH by lia. reflexivity.
    + apply IH. cbn in Hn. lia.
Qed.

Lemma scan_newline (a b : str) :
  scan f 0 (a ++ NEWLINE :: b) = scan f 0 a ++ NEWLINE :: scan f 0 b.
Proof. apply scan_newline_from. lia. Qed.
End ScanFacts.

(** ** Occurrences and the characters that break them *)

Lemma skipn_app_le A (n : nat) (a b : list A) :
  n <= length a -> skipn n (a ++ b) = skipn n a ++ b.
Proof.
  intros H. rewrite skipn_app.
  replace (n - length a) with 0 by lia. reflexivity.
Qed.

Lemma firstn_app_le A (n : nat) (a b : list A) :
  n <= length a -> firstn n (a ++ b) = firstn n a.
Proof.
  intros H. rewrite firstn_app.
  replace (n - length a) with 0 by lia. cbn. apply app_nil_r.
Qed.

Lemma starts_nocase_break (p a b : str) (x : codepoint) :
  breaks x p = true ->
  starts_nocase p (a ++ x :: b) = starts_nocase p a.
Proof.
  unfold breaks. revert a. induction p as [|y p IH]; intros a Hx.
  - reflexivity.
  - cbn [forallb] in Hx. apply andb_true_iff in Hx as [Hy Hx].
    destruct a as [|c a]; cbn [app starts_nocase].
    + apply negb_true_iff in Hy. now rewrite Hy.
    + now rewrite IH.
Qed.

Lemma starts_nocase_firstn (p s : str) (n : nat) :
  length p <= n ->
  starts_nocase p (firstn n s) = starts_nocase p s.
Proof.
  revert s n. induction p as [|y p IH]; intros s n Hn.
  - reflexivity.
  - destruct n as [|n]; [cbn in Hn; lia|].
    destruct s as [|c s]; [reflexivity|].
    cbn [firstn starts_nocase]. rewrite IH by (cbn in Hn; lia).
    reflexivity.
Qed.

Lemma starts_nocase_app_le (p a b : str) :
  length p <= length a ->
  starts_nocase p (a ++ b) = starts_nocase p a.
Proof.
  intros H. rewrite <- (starts_nocase_firstn p (a ++ b) (length a)) by easy.
  now rewrite firstn_app, firstn_all, Nat.sub_diag, app_nil_r.
Qed.

Lemma contains_nocase_spec (p s : str) :
  contains_nocase p s = true <-> occurs p s.
Proof.
  unfold occurs. induction s as [|c s IH]; cbn [contains_nocase].
  - rewrite orb_false_r, <- occurs_at_starts. split.
    + intros H. now exists [], [].
    + intros (pre & rest & H1 & H2).
      symmetry in H1. apply app_eq_nil in H1 as [-> ->]. exact H2.
  - rewrite orb_true_iff, IH, <- occurs_at_starts. split.
    + intros [H|(pre & rest & -> & H)].
      * now exists [], (c :: s).
      * now exists (c :: pre), rest.
    + intros ([|c' pre] & rest & H1 & H2); cbn in H1.
      * left. now subst.
      * right. injection H1 as -> ->. now exists pre, rest.
Qed.

Lemma not_occurs_skipn (p s : str) (i : nat) :
  ~ occurs p s -> starts_nocase p (skipn i s) = false.
Proof.
  intros H. destruct (starts_nocase p (skipn i s)) eqn:Hs; [|reflexivity].
  exfalso. apply H. exists (firstn i s), (skipn i s).
  split; [now rewrite firstn_skipn | now apply occurs_at_starts].
Qed.

Lemma occurs_app_l (p a b : str) : occurs p a -> occurs p (a ++ b).
Proof.
  intros (pre & rest & -> & H). exists pre, (rest ++ b).
  split; [now rewrite app_assoc|].
  apply occurs_at_starts. apply occurs_at_starts in H.
  now apply starts_nocase_app.
Qed.

Lemma occurs_app_r (p a b : str) : occurs p b -> occurs p (a ++ b).
Proof.
  intros (pre & rest & -> & H). exists (a ++ pre), rest.
  split; [now rewrite app_assoc | easy].
Qed.

(** ** The stripper *)

Lemma strip_at_len (s t : str) (n : nat) :
  strip_at s = Some (t, n) -> 0 < n <= length s.
Proof.
  unfold strip_at. destruct (starts_nocase MUST_FAIL s) eqn:H; [|discriminate].
  intros [= <- <-]. apply starts_nocase_length in H.
  change (length MUST_FAIL) with 10 in H. lia.
Qed.

Lemma strip_at_line (a b : str) :
  strip_at (a ++ NEWLINE :: b) = strip_at a.
Proof. unfold strip_at. now rewrite starts_nocase_break. Qed.

Lemma strip_at_short (s t : str) (n : nat) :
  strip_at s = Some (t, n) -> length t <= n.
Proof.
  unfold strip_at. destruct (starts_nocase MUST_FAIL s); [|discriminate].
  intros [= <- <-]. cbn. lia.
Qed.

Lemma strip_at_hit (w rest : str) :
  eq_nocase MUST_FAIL w -> strip_at (w ++ rest) = Some ([], length w).
Proof.
  intros H. unfold strip_at. rewrite (eq_nocase_starts _ _ rest H).
  now rewrite <- (eq_nocase_length _ _ H).
Qed.

Lemma strip_at_miss (s : str) :
  ~ occurs_at MUST_FAIL s -> strip_at s = None.
Proof.
  intros H. unfold strip_at.
  destruct (starts_nocase MUST_FAIL s) eqn:Hs; [|reflexivity].
  now apply occurs_at_starts in Hs.
Qed.

Lemma deleted_all_scan (s out : str) :
  deleted_all MUST_FAIL s out -> out = scan strip_at 0 s.
Proof.
  induction 1 as [|w rest out Hw _ IH|c s out Hc _ IH].
  - reflexivity.
  - rewrite (scan_hit _ strip_at_len w rest []); [exact IH|].
    now apply strip_at_hit.
  - rewrite scan_miss; [now f_equal|]. now apply strip_at_miss.
Qed.

Lemma scan_deleted_all (s : str) :
  deleted_all MUST_FAIL s (scan strip_at 0 s).
Proof.
  remember (length s) as n eqn:Hn. revert s Hn.
  induction n as [n IH] using lt_wf_ind. intros s Hn.
  destruct s as [|c s].
  - rewrite (scan_nil _ strip_at_len). constructor.
  - destruct (starts_nocase MUST_FAIL (c :: s)) eqn:Hs.
    + destruct (starts_nocase_split _ _ Hs) as [Hw Hsplit].
      change (length MUST_FAIL) with 10 in *.
      rewrite Hsplit.
      rewrite (scan_hit _ strip_at_len _ _ [])
        by (rewrite strip_at_hit by exact Hw;
            now rewrite <- (eq_nocase_length _ _ Hw)).
      apply deleted_hit; [exact Hw|].
      apply (IH (length (skipn 10 (c :: s)))); [|reflexivity].
      rewrite length_skipn. subst n. cbn [length]. lia.
    + rewrite scan_miss by (unfold strip_at; now rewrite Hs).
      apply deleted_keep.
      * rewrite occurs_at_starts, Hs. discriminate.
      * apply (IH (length s)); [subst n; cbn; lia | reflexivity].
Qed.

(** ** The badge renderer *)

Lemma eq_nocase_colon (w : str) : eq_nocase (py ": ") w -> w = py ": ".
Proof.
  unfold eq_nocase.
  destruct w as [|a [|b [|c w]]]; cbn; try discriminate.
  intros [= Ha Hb]. unfold casefold in Ha, Hb.
  assert (a = 58%N) as -> by (split_tests; lia).
  assert (b = 32%N) as -> by (split_tests; lia).
  reflexivity.
Qed.

Lemma find_close_first (s v : str) (j : nat) :
  find_close s = Some v -> j < length v ->
  starts_nocase SUP_CLOSE (skipn j s) = false.
Proof.
  revert v j. induction s as [|c s IH]; intros v j; cbn [find_close].
  - cbn. discriminate.
  - destruct (starts_nocase SUP_CLOSE (c :: s)) eqn:Hs.
    + intros [= <-]. cbn. lia.
    + destruct (c =? NEWLINE)%N; [discriminate|].
      destruct (find_close s) as [v'|] eqn:Hv; [|discriminate].
      intros [= <-] Hj. destruct j as [|j]; [exact Hs|].
      cbn [skipn]. apply (IH v'); [reflexivity | cbn in Hj; lia].
Qed.

Lemma find_close_some (v t : str) :
  ~ In NEWLINE v -> starts_nocase SUP_CLOSE t = true ->
  exists v', find_close (v ++ t) = Some v'.
Proof.
  intros Hv Ht. induction v as [|c v IH].
  - exists []. destruct t; cbn [app find_close]; now rewrite Ht.
  - cbn [app find_close].
    destruct (starts_nocase SUP_CLOSE (c :: v ++ t)); [now exists []|].
    destruct (N.eqb_spec c NEWLINE) as [->|_]; [exfalso; apply Hv; now left|].
    destruct IH as [v' ->]; [intros H; apply Hv; now right|].
    now exists (c :: v').
Qed.

Lemma find_close_exact (v t : str) :
  ~ In NEWLINE v -> starts_nocase SUP_CLOSE t = true ->
  (forall j, j < length v -> starts_nocase SUP_CLOSE (skipn j (v ++ t)) = false) ->
  find_close (v ++ t) = Some v.
Proof.
  intros Hv Ht. induction v as [|c v IH]; intros Hfirst.
  - destruct t; cbn [app find_close]; now rewrite Ht.
  - cbn [app find_close].
    assert (starts_nocase SUP_CLOSE (c :: v ++ t) = false) as ->
        by (apply (Hfirst 0); cbn; lia).
    destruct (N.eqb_spec c NEWLINE) as [->|_]; [exfalso; apply Hv; now left|].
    rewrite IH; [reflexivity | intros H; apply Hv; now right |].
    intros j Hj. apply (Hfirst (S j)). cbn. lia.
Qed.

Lemma find_close_line (a b : str) :
  find_close (a ++ NEWLINE :: b) = find_close a.
Proof.
  induction a as [|c a IH].
  - cbn [app find_close].
    rewrite <- (app_nil_l (NEWLINE :: b)), starts_nocase_break by reflexivity.
    cbn [app]. now rewrite N.eqb_refl.
  - cbn [app find_close].
    rewrite (app_comm_cons a (NEWLINE :: b) c), starts_nocase_break
      by reflexivity.
    now rewrite IH.
Qed.

(** [badge_parts] on a text that starts with an opening tag and a
    preposition. *)
Lemma badge_parts_app (o p t : str) :
  eq_nocase SUP_OPEN o ->
  eq_nocase (py "Until") p \/ eq_nocase (py "Since") p ->
  badge_parts (o ++ p ++ py ": " ++ t) =
  option_map (fun v => (p, v)) (find_close t).
Proof.
  intros Ho Hp. unfold badge_parts.
  rewrite (eq_nocase_starts _ _ _ Ho).
  assert (length o = 5) as Hlo by now rewrite <- (eq_nocase_length _ _ Ho).
  assert (length p = 5) as Hlp
      by (destruct Hp as [Hp|Hp]; now rewrite <- (eq_nocase_length _ _ Hp)).
  assert (skipn 5 (o ++ p ++ py ": " ++ t) = p ++ py ": " ++ t) as ->.
  { rewrite <- Hlo, skipn_app, skipn_all, Nat.sub_diag. reflexivity. }
  assert (starts_nocase (py "Until") (p ++ py ": " ++ t)
          || starts_nocase (py "Since") (p ++ py ": " ++ t) = true) as ->.
  { apply orb_true_iff.
    destruct Hp as [Hp|Hp]; [left|right]; now apply eq_nocase_starts. }
  assert (skipn 5 (p ++ py ": " ++ t) = py ": " ++ t) as ->.
  { rewrite <- Hlp, skipn_app, skipn_all, Nat.sub_diag. reflexivity. }
  assert (skipn 7 (p ++ py ": " ++ t) = t) as ->.
  { rewrite skipn_app, Hlp. rewrite skipn_all2 by lia. reflexivity. }
  rewrite firstn_app_le, firstn_all2 by lia.
  assert (starts_nocase (py ": ") (py ": " ++ t) = true) as ->
      by now apply eq_nocase_starts.
  destruct (find_close t); reflexivity.
Qed.

Lemma badge_parts_split (s p v : str) :
  badge_parts s = Some (p, v) ->
  exists o t,
    s = o ++ p ++ py ": " ++ t /\
    eq_nocase SUP_OPEN o /\
    (eq_nocase (py "Until") p \/ eq_nocase (py "Since") p) /\
    find_close t = Some v.
Proof.
  unfold badge_parts.
  destruct (starts_nocase SUP_OPEN s) eqn:H0; [|discriminate].
  apply starts_nocase_split in H0 as [Ho Hs].
  change (length SUP_OPEN) with 5 in *.
  set (s1 := skipn 5 s) in *.
  destruct (starts_nocase (py "Until") s1 || starts_nocase (py "Since") s1)
    eqn:H1; [|discriminate].
  assert (eq_nocase (py "Until") (firstn 5 s1) \/
          eq_nocase (py "Since") (firstn 5 s1)) as Hp.
  { apply orb_true_iff in H1 as [H1|H1]; [left|right];
      now apply starts_nocase_split in H1 as [H1 _]. }
  destruct (starts_nocase (py ": ") (skipn 5 s1)) eqn:H2; [|discriminate].
  apply starts_nocase_split in H2 as [Hc Hs2].
  change (length (py ": ")) with 2 in *.
  apply eq_nocase_colon in Hc. rewrite Hc, skipn_skipn in Hs2.
  cbn [Nat.add] in Hs2.
  destruct (find_close (skipn 7 s1)) as [v'|] eqn:Hv; [|discriminate].
  intros [= <- <-].
  exists (firstn 5 s), (skipn 7 s1).
  split; [|now repeat split].
  change (s = firstn 5 s ++ firstn 5 s1 ++ py ": " ++ skipn 7 s1).
  rewrite <- Hs2, firstn_skipn. exact Hs.
Qed.

Lemma close_tag_split (c : str) :
  eq_nocase SUP_CLOSE c ->
  exists l, c = removelast c ++ [l] /\ length (removelast c) = 5.
Proof.
  intros Hc. apply eq_nocase_length in Hc. change (length SUP_CLOSE) with 6 in Hc.
  assert (c <> []) as Hne by (intros ->; discriminate).
  pose proof (app_removelast_last 0%N Hne) as H.
  exists (last c 0%N). split; [exact H|].
  apply (f_equal (@length _)) in H. rewrite length_app in H.
  cbn [length] in H. lia.
Qed.

Lemma first_close_iff (v c rest : str) :
  eq_nocase SUP_CLOSE c ->
  first_close v c <->
  (forall j, j < length v ->
             starts_nocase SUP_CLOSE (skipn j (v ++ c ++ rest)) = false).
Proof.
  intros Hc. destruct (close_tag_split c Hc) as (l & Hl & Hlen).
  unfold first_close.
  assert (forall j, j < length v ->
            starts_nocase SUP_CLOSE (skipn j (v ++ c ++ rest)) =
            starts_nocase SUP_CLOSE (skipn j (v ++ removelast c))) as Hsame.
  { intros j Hj. rewrite Hl at 1.
    replace (v ++ (removelast c ++ [l]) ++ rest)
      with ((v ++ removelast c) ++ [l] ++ rest)
      by now rewrite <- !app_assoc.
    rewrite skipn_app_le by (rewrite length_app; lia).
    apply starts_nocase_app_le.
    rewrite length_skipn, length_app. change (length SUP_CLOSE) with 6. lia. }
  split.
  - intros Hno j Hj. rewrite Hsame by exact Hj. now apply not_occurs_skipn.
  - intros Hfirst (pre & r & Hsplit & Hr). apply occurs_at_starts in Hr.
    assert (length pre < length v) as Hlt.
    { apply starts_nocase_length in Hr. change (length SUP_CLOSE) with 6 in Hr.
      apply (f_equal (@length _)) in Hsplit. rewrite !length_app in Hsplit.
      lia. }
    specialize (Hfirst _ Hlt). rewrite Hsame in Hfirst by exact Hlt.
    rewrite Hsplit, skipn_app, skipn_all, Nat.sub_diag in Hfirst.
    cbn [app skipn] in Hfirst. congruence.
Qed.

(** What [badge_parts] finds is an annotation with its first closing
    tag. *)
Lemma badge_parts_spec (s p v : str) :
  badge_parts s = Some (p, v) ->
  exists o c rest,
    s = o ++ p ++ py ": " ++ v ++ c ++ rest /\
    annotation o p v c /\ first_close v c.
Proof.
  intros H. apply badge_parts_split in H as (o & t & -> & Ho & Hp & Hv).
  pose proof (find_close_spec _ _ Hv) as (Ht & Hc & Hnl).
  apply starts_nocase_split in Hc as [Hc Hrest].
  change (length SUP_CLOSE) with 6 in *.
  set (t' := skipn (length v) t) in *.
  assert (t = v ++ firstn 6 t' ++ skipn 6 t') as Ht'
      by (rewrite firstn_skipn; exact Ht).
  exists o, (firstn 6 t'), (skipn 6 t').
  split; [now rewrite <- Ht'|]. split; [now repeat split|].
  apply (first_close_iff v _ (skipn 6 t') Hc).
  intros j Hj. rewrite <- Ht'. now apply (find_close_first t v j).
Qed.

Lemma badge_parts_hit (o p v c rest : str) :
  annotation o p v c -> first_close v c ->
  badge_parts (o ++ p ++ py ": " ++ v ++ c ++ rest) = Some (p, v).
Proof.
  intros (Ho & Hp & Hnl & Hc) Hfirst.
  rewrite badge_parts_app by assumption.
  rewrite find_close_exact; [reflexivity | exact Hnl | |].
  - now apply eq_nocase_starts.
  - now apply (first_close_iff v c rest Hc).
Qed.

Lemma badge_parts_none (s : str) :
  badge_parts s = None <-> ~ annotation_at s.
Proof.
  split.
  - intros H (o & p & v & c & rest & -> & Ho & Hp & Hnl & Hc).
    rewrite badge_parts_app in H by assumption.
    destruct (find_close_some v (c ++ rest) Hnl) as [v' Hv'].
    + now apply eq_nocase_starts.
    + now rewrite Hv' in H.
  - intros H. destruct (badge_parts s) as [[p v]|] eqn:Hs; [|reflexivity].
    exfalso. apply H.
    apply badge_parts_spec in Hs as (o & c & rest & Hs & Ha & _).
    now exists o, p, v, c, rest.
Qed.

Lemma annotation_length (o p v c : str) :
  annotation o p v c ->
  length (o ++ p ++ py ": " ++ v ++ c) = 18 + length v.
Proof.
  intros (Ho & Hp & _ & Hc).
  apply eq_nocase_length in Ho, Hc.
  assert (length p = 5)
    by (destruct Hp as [Hp|Hp]; now apply eq_nocase_length in Hp).
  rewrite !length_app, <- Ho, <- Hc. cbn. lia.
Qed.

Lemma annotation_assoc (o p v c rest : str) :
  o ++ p ++ py ": " ++ v ++ c ++ rest = (o ++ p ++ py ": " ++ v ++ c) ++ rest.
Proof. now rewrite <- !app_assoc. Qed.

Lemma badge_at_len (s t : str) (n : nat) :
  badge_at s = Some (t, n) -> 0 < n <= length s.
Proof.
  unfold badge_at. destruct (badge_parts s) as [[p v]|] eqn:H; [|discriminate].
  intros [= <- <-].
  apply badge_parts_spec in H as (o & c & rest & -> & Ha & _).
  apply annotation_length in Ha.
  rewrite annotation_assoc, length_app, Ha. lia.
Qed.

Lemma badge_at_hit (o p v c rest : str) :
  annotation o p v c -> first_close v c ->
  badge_at ((o ++ p ++ py ": " ++ v ++ c) ++ rest) =
  Some (badge p v, length (o ++ p ++ py ": " ++ v ++ c)).
Proof.
  intros Ha Hf. unfold badge_at.
  rewrite <- annotation_assoc, badge_parts_hit by assumption.
  now rewrite (annotation_length _ _ _ _ Ha).
Qed.

Lemma rendered_scan (s out : str) :
  rendered s out -> out = scan badge_at 0 s.
Proof.
  induction 1 as [|o p v c rest out Ha Hf _ IH|ch s out Hc _ IH].
  - reflexivity.
  - rewrite annotation_assoc.
    rewrite (scan_hit _ badge_at_len _ rest (badge p v)); [now f_equal|].
    now apply badge_at_hit.
  - rewrite scan_miss; [now f_equal|].
    unfold badge_at. apply badge_parts_none in Hc. now rewrite Hc.
Qed.

Lemma scan_rendered (s : str) : rendered s (scan badge_at 0 s).
Proof.
  remember (length s) as n eqn:Hn. revert s Hn.
  induction n as [n IH] using lt_wf_ind. intros s Hn.
  destruct s as [|ch s].
  - rewrite (scan_nil _ badge_at_len). constructor.
  - destruct (badge_parts (ch :: s)) as [[p v]|] eqn:Hs.
    + destruct (badge_parts_spec _ _ _ Hs) as (o & c & rest & E & Ha & Hf).
      rewrite E, annotation_assoc.
      rewrite (scan_hit _ badge_at_len _ rest (badge p v))
        by now apply badge_at_hit.
      rewrite <- annotation_assoc.
      apply rendered_hit; [exact Ha | exact Hf |].
      apply (IH (length rest)); [|reflexivity].
      subst n. rewrite E. pose proof (annotation_length _ _ _ _ Ha) as Hl.
      rewrite annotation_assoc, length_app, Hl. lia.
    + rewrite scan_miss by (unfold badge_at; now rewrite Hs).
      apply rendered_keep.
      * now apply badge_parts_none.
      * apply (IH (length s)); [subst n; cbn; lia | reflexivity].
Qed.

Lemma contains_badge_spec (s : str) :
  contains_badge s = true <-> has_annotation s.
Proof.
  unfold has_annotation. induction s as [|ch s IH]; cbn [contains_badge].
  - destruct (badge_parts []) eqn:H; [discriminate H|].
    split; [discriminate|]. intros (pre & rest & E & Ha).
    symmetry in E. apply app_eq_nil in E as [-> ->].
    now apply badge_parts_none in H.
  - destruct (badge_parts (ch :: s)) as [pv|] eqn:H.
    + split; [intros _|reflexivity]. exists [], (ch :: s). split; [reflexivity|].
      destruct (badge_parts_spec _ _ _ (eq_trans H (f_equal Some (surjective_pairing pv))))
        as (o & c & rest & E & Ha & _).
      now exists o, (fst pv), (snd pv), c, rest.
    + rewrite IH. split.
      * intros (pre & rest & -> & Ha). now exists (ch :: pre), rest.
      * intros ([|ch' pre] & rest & E & Ha); cbn in E.
        -- subst rest. now apply badge_parts_none in H.
        -- injection E as -> ->. now exists pre, rest.
Qed.

Lemma no_annotation_skipn (s : str) (i : nat) :
  ~ has_annotation s -> badge_at (skipn i s) = None.
Proof.
  intros H. unfold badge_at.
  destruct (badge_parts (skipn i s)) as [[p v]|] eqn:Hs; [|reflexivity].
  exfalso. apply H. exists (firstn i s), (skipn i s).
  split; [now rewrite firstn_skipn|].
  apply badge_parts_spec in Hs as (o & c & rest & E & Ha & _).
  now exists o, p, v, c, rest.
Qed.

(** The texts the stripper leaves as they are. *)
Lemma stripper_fixed_iff (t : str) :
  AnnotationStripper t = Ok t <-> ~ occurs MUST_FAIL t.
Proof.
  rewrite stripper_scan. split.
  - intros [= H] Hocc. apply contains_nocase_spec in Hocc.
    assert (forall u, contains_nocase MUST_FAIL u = true ->
                      length (scan strip_at 0 u) < length u) as Hshorter.
    { clear. induction u as [|c u IH]; cbn [contains_nocase].
      - discriminate.
      - intros Hc. cbn [scan]. unfold strip_at at 1.
        destruct (starts_nocase MUST_FAIL (c :: u)) eqn:Hs.
        + cbn [app length].
          pose proof (scan_length _ strip_at_len u 9 strip_at_short). lia.
        + cbn [orb] in Hc. apply IH in Hc. cbn [length]. lia. }
    apply Hshorter in Hocc. rewrite H in Hocc. lia.
  - intros H. f_equal. apply (scan_none _ strip_at_len). intros i.
    unfold strip_at. now rewrite (not_occurs_skipn _ _ i H).
Qed.

(** ** A match does not see past a tail it cannot run into *)

Lemma starts_nocase_break_cons (x : codepoint) (p : str) (c : codepoint)
      (a b : str) (y : codepoint) :
  breaks y p = true ->
  starts_nocase (x :: p) ((c :: a) ++ y :: b) = starts_nocase (x :: p) (c :: a).
Proof.
  intros H. cbn [app starts_nocase]. now rewrite starts_nocase_break.
Qed.

Lemma find_close_occurs (t v : str) :
  find_close t = Some v -> occurs SUP_CLOSE t.
Proof.
  intros H. apply find_close_spec in H as (Ht & Hc & _).
  exists v, (skipn (length v) t). split; [exact Ht|].
  now apply occurs_at_starts.
Qed.

Lemma badge_parts_occurs (t : str) (pv : str * str) :
  badge_parts t = Some pv -> occurs SUP_CLOSE t.
Proof.
  destruct pv as [p v]. intros H.
  apply badge_parts_split in H as (o & u & -> & _ & _ & Hv).
  apply find_close_occurs in Hv.
  rewrite !app_assoc. now apply occurs_app_r.
Qed.

Section Tail.
(** A tail [t] that the pieces of the pattern cannot run into. *)
Variable t : str.
Hypothesis open_tail :
  forall c a, starts_nocase SUP_OPEN ((c :: a) ++ t) =
              starts_nocase SUP_OPEN (c :: a).
Hypothesis word_tail :
  forall p a, In p [py "Until"; py "Since"; py ": "] ->
              starts_nocase p (a ++ t) = starts_nocase p a.
Hypothesis close_tail : forall a, find_close (a ++ t) = find_close a.
Hypothesis no_badge : badge_parts t = None.

Lemma badge_parts_tail (a : str) : badge_parts (a ++ t) = badge_parts a.
Proof.
  destruct a as [|c a]; [exact no_badge|].
  unfold badge_parts. rewrite open_tail.
  destruct (starts_nocase SUP_OPEN (c :: a)) eqn:H0; [|reflexivity].
  apply starts_nocase_length in H0. change (length SUP_OPEN) with 5 in H0.
  rewrite skipn_app_le by exact H0.
  set (a1 := skipn 5 (c :: a)).
  rewrite !word_tail by (cbn; auto).
  destruct (starts_nocase (py "Until") a1 || starts_nocase (py "Since") a1)
    eqn:H1; [|reflexivity].
  assert (5 <= length a1) as Hl1.
  { apply orb_true_iff in H1 as [H1|H1];
      now apply starts_nocase_length in H1. }
  rewrite (skipn_app_le _ 5) by exact Hl1.
  rewrite word_tail by (cbn; auto).
  destruct (starts_nocase (py ": ") (skipn 5 a1)) eqn:H2; [|reflexivity].
  apply starts_nocase_length in H2. rewrite length_skipn in H2.
  change (length (py ": ")) with 2 in H2.
  rewrite (skipn_app_le _ 7) by lia.
  rewrite close_tail, firstn_app_le by exact Hl1.
  reflexivity.
Qed.

Lemma badge_at_tail (a : str) : badge_at (a ++ t) = badge_at a.
Proof. unfold badge_at. now rewrite badge_parts_tail. Qed.
End Tail.

Lemma badge_at_line (a b : str) :
  badge_at (a ++ NEWLINE :: b) = badge_at a.
Proof.
  apply badge_at_tail.
  - intros c a'. now apply starts_nocase_break_cons.
  - intros p a' [<-|[<-|[<-|[]]]]; now apply starts_nocase_break.
  - intros a'. apply find_close_line.
  - reflexivity.
Qed.

(** A tail that starts with [<] and has no closing tag. *)
Lemma find_close_open_tail (t a : str) :
  ~ occurs SUP_CLOSE (60%N :: t) ->
  find_close (a ++ 60%N :: t) = find_close a.
Proof.
  intros Hno. induction a as [|c a IH].
  - cbn [app]. destruct (find_close (60%N :: t)) as [v|] eqn:H; [|reflexivity].
    now apply find_close_occurs in H.
  - cbn [app find_close].
    rewrite (app_comm_cons a (60%N :: t) c).
    change SUP_CLOSE with (60%N :: py "/sup>").
    rewrite starts_nocase_break_cons by reflexivity.
    now rewrite IH.
Qed.

Lemma badge_at_open_tail (t a : str) :
  ~ occurs SUP_CLOSE (60%N :: t) ->
  badge_at (a ++ 60%N :: t) = badge_at a.
Proof.
  intros Hno. apply badge_at_tail.
  - intros c a'. change SUP_OPEN with (60%N :: py "sup>").
    now apply starts_nocase_break_cons.
  - intros p a' [<-|[<-|[<-|[]]]]; now apply starts_nocase_break.
  - intros a'. now apply find_close_open_tail.
  - destruct (badge_parts (60%N :: t)) as [pv|] eqn:H; [|reflexivity].
    now apply badge_parts_occurs in H.
Qed.

Section ScanTail.
Variable f : str -> option (str * nat).
Hypothesis f_len : forall s t n, f s = Some (t, n) -> 0 < n <= length s.
Variable t : str.
Hypothesis f_tail : forall a, f (a ++ t) = f a.

Lemma scan_app_tail (a : str) (n : nat) :
  n <= length a ->
  scan f n (a ++ t) = scan f n a ++ scan f 0 t.
Proof.
  revert n. induction a as [|c a IH]; intros n Hn.
  - cbn in Hn. assert (n = 0) as -> by lia.
    now rewrite (scan_nil _ f_len).
  - cbn [app scan]. destruct n as [|n].
    + rewrite (app_comm_cons a t c), f_tail.
      destruct (f (c :: a)) as [[r [|k]]|] eqn:Hf.
      * apply f_len in Hf. lia.
      * apply f_len in Hf. cbn in Hf.
        rewrite IH by lia. now rewrite app_assoc.
      * rewrite IH by lia. reflexivity.
    + apply IH. cbn in Hn. lia.
Qed.
End ScanTail.

(** ** The opening tag and the preposition hold no closing tag *)

Lemma starts_nocase_fold (p w w' b : str) :
  map casefold w = map casefold w' ->
  starts_nocase p (w ++ b) = starts_nocase p (w' ++ b).
Proof.
  revert w w'. induction p as [|x p IH]; intros w w' H; [reflexivity|].
  destruct w as [|c w], w' as [|c' w']; try discriminate H; [reflexivity|].
  cbn in H. injection H as Hc Hw.
  cbn [app starts_nocase]. rewrite Hc. f_equal. now apply IH.
Qed.

Lemma contains_nocase_fold (p w w' : str) :
  map casefold w = map casefold w' ->
  contains_nocase p w = contains_nocase p w'.
Proof.
  revert w'. induction w as [|c w IH]; intros [|c' w'] H;
    try discriminate H; [reflexivity|].
  cbn [contains_nocase].
  rewrite <- (app_nil_r (c :: w)), <- (app_nil_r (c' :: w')) at 1.
  rewrite (starts_nocase_fold p _ _ [] H).
  cbn in H. injection H as _ Hw. now rewrite (IH w' Hw).
Qed.

Lemma header_fold (o p : str) :
  eq_nocase SUP_OPEN o ->
  eq_nocase (py "Until") p \/ eq_nocase (py "Since") p ->
  map casefold (o ++ p ++ py ": ") = map casefold (py "<sup>Until: ") \/
  map casefold (o ++ p ++ py ": ") = map casefold (py "<sup>Since: ").
Proof.
  unfold eq_nocase. intros Ho [Hp|Hp]; [left|right];
    now rewrite !map_app, <- Ho, <- Hp.
Qed.

Lemma header_no_close (o p body : str) :
  eq_nocase SUP_OPEN o ->
  eq_nocase (py "Until") p \/ eq_nocase (py "Since") p ->
  ~ occurs SUP_CLOSE body ->
  ~ occurs SUP_CLOSE (o ++ p ++ py ": " ++ body).
Proof.
  intros Ho Hp Hbody (pre & r & E & Hr). apply occurs_at_starts in Hr.
  assert (r = skipn (length pre) ((o ++ p ++ py ": ") ++ body)) as Er.
  { rewrite <- !app_assoc, E, skipn_app, skipn_all, Nat.sub_diag.
    reflexivity. }
  assert (length (o ++ p ++ py ": ") = 12) as Hlen.
  { destruct (header_fold o p Ho Hp) as [H|H];
      apply (f_equal (@length _)) in H; now rewrite !length_map in H. }
  set (h := o ++ p ++ py ": ") in *. set (j := length pre) in *.
  destruct (Nat.le_gt_cases 12 j) as [Hj|Hj].
  - rewrite skipn_app, skipn_all2 in Er by lia. cbn [app] in Er.
    rewrite Er in Hr. now rewrite not_occurs_skipn in Hr.
  - rewrite skipn_app_le in Er by lia. rewrite Er in Hr.
    assert (forall k, map casefold h = map casefold k ->
              starts_nocase SUP_CLOSE (skipn j k ++ body) = true) as Hk.
    { intros k Hk. rewrite <- Hr. symmetry. apply starts_nocase_fold.
      now rewrite <- !skipn_map, Hk. }
    destruct (header_fold o p Ho Hp) as [H|H]; apply Hk in H;
      do 12 (destruct j as [|j]; [discriminate H|]); lia.
Qed.

Lemma open_tag_head (o : str) :
  eq_nocase SUP_OPEN o -> exists o', o = 60%N :: o'.
Proof.
  unfold eq_nocase. destruct o as [|c o]; [discriminate|].
  cbn. intros [= Hc _]. exists o. f_equal.
  unfold casefold in Hc. split_tests; lia.
Qed.

Lemma occurs_suffix (p s : str) (i : nat) :
  occurs p (skipn i s) -> occurs p s.
Proof.
  intros H. rewrite <- (firstn_skipn i s). now apply occurs_app_r.
Qed.

(** A text without a closing tag is left as it is. *)
Lemma scan_badge_no_close (s : str) :
  ~ occurs SUP_CLOSE s -> scan badge_at 0 s = s.
Proof.
  intros H. apply (scan_none _ badge_at_len). intros i. unfold badge_at.
  destruct (badge_parts (skipn i s)) as [pv|] eqn:Hs; [|reflexivity].
  exfalso. apply H. apply badge_parts_occurs in Hs.
  now apply occurs_suffix in Hs.
Qed.

Lemma scan_badge_newline (a b : str) :
  scan badge_at 0 (a ++ NEWLINE :: b) =
  scan badge_at 0 a ++ NEWLINE :: scan badge_at 0 b.
Proof. apply (scan_newline _ badge_at_len badge_at_line). Qed.

Lemma scan_strip_newline (a b : str) :
  scan strip_at 0 (a ++ NEWLINE :: b) =
  scan strip_at 0 a ++ NEWLINE :: scan strip_at 0 b.
Proof. apply (scan_newline _ strip_at_len strip_at_line). Qed.

(** An opening tag and a preposition that no closing tag follows are
    copied, whatever stands in front of them. *)
Lemma scan_badge_unclosed (pre o p body : str) :
  eq_nocase SUP_OPEN o ->
  eq_nocase (py "Until") p \/ eq_nocase (py "Since") p ->
  ~ occurs SUP_CLOSE body ->
  scan badge_at 0 (pre ++ o ++ p ++ py ": " ++ body) =
  scan badge_at 0 pre ++ o ++ p ++ py ": " ++ body.
Proof.
  intros Ho Hp Hbody.
  pose proof (header_no_close o p body Ho Hp Hbody) as Hno.
  destruct (open_tag_head o Ho) as [o' ->]. cbn [app] in *.
  rewrite (scan_app_tail _ badge_at_len) by
    (try lia; intros a; now apply badge_at_open_tail).
  now rewrite (scan_badge_no_close _ Hno).
Qed.

(** ** The stripper on the output of the renderer *)

Lemma badge_at_head (s t : str) (n : nat) :
  badge_at s = Some (t, n) ->
  exists s' t', s = 60%N :: s' /\ t = 60%N :: t'.
Proof.
  unfold badge_at. destruct (badge_parts s) as [[p v]|] eqn:H; [|discriminate].
  intros [= <- <-].
  apply badge_parts_split in H as (o & u & -> & Ho & _).
  destruct (open_tag_head o Ho) as [o' ->].
  exists (o' ++ p ++ py ": " ++ u), (tl (badge p v)). split; [reflexivity|].
  unfold badge, unlinked_badge, linked_badge.
  destruct (str_eqb v NEXT_RELEASE); reflexivity.
Qed.

(** The renderer does not change what stands before the first [<]. *)
Lemma starts_scan_badge (p l : str) :
  breaks 60%N p = true ->
  starts_nocase p (scan badge_at 0 l) = starts_nocase p l.
Proof.
  revert p. induction l as [|c l IH]; intros p Hp.
  - now rewrite (scan_nil _ badge_at_len).
  - destruct p as [|x p]; [reflexivity|].
    cbn [breaks forallb] in Hp. apply andb_true_iff in Hp as [Hx Hp].
    apply negb_true_iff in Hx.
    cbn [scan]. destruct (badge_at (c :: l)) as [[t [|k]]|] eqn:Hc.
    + apply badge_at_len in Hc. lia.
    + apply badge_at_head in Hc as (s' & t' & [= -> ->] & ->).
      cbn [app starts_nocase]. now rewrite Hx.
    + cbn [starts_nocase]. f_equal. now apply IH.
Qed.

Lemma occurs_app_break (p a b : str) (y : codepoint) :
  breaks y p = true ->
  occurs p (a ++ y :: b) -> occurs p a \/ occurs p b.
Proof.
  intros Hy (pre & r & E & Hr). apply occurs_at_starts in Hr.
  assert (r = skipn (length pre) (a ++ y :: b)) as Er
      by now rewrite E, skipn_app, skipn_all, Nat.sub_diag.
  destruct (Nat.le_gt_cases (length pre) (length a)) as [Hle|Hgt].
  - left. rewrite skipn_app_le in Er by exact Hle.
    rewrite Er, starts_nocase_break in Hr by exact Hy.
    exists (firstn (length pre) a), (skipn (length pre) a).
    split; [now rewrite firstn_skipn | now apply occurs_at_starts].
  - right. rewrite skipn_app, skipn_all2 in Er by lia. cbn [app] in Er.
    destruct (length pre - length a) as [|k] eqn:Hk; [lia|].
    cbn [skipn] in Er. apply (occurs_suffix p b k). rewrite <- Er.
    exists [], r. split; [reflexivity | now apply occurs_at_starts].
Qed.

Lemma str_eqb_eq (a b : str) : str_eqb a b = true -> a = b.
Proof. unfold str_eqb. now destruct (list_eq_dec N.eq_dec a b). Qed.

Lemma not_occurs_check (p s : str) :
  contains_nocase p s = false -> ~ occurs p s.
Proof. intros H Hocc. apply contains_nocase_spec in Hocc. congruence. Qed.

(** A badge holds an occurrence of [,must-fail] only if its version
    does. *)
Lemma badge_clean (p v : str) :
  eq_nocase (py "Until") p \/ eq_nocase (py "Since") p ->
  ~ occurs MUST_FAIL v ->
  ~ occurs MUST_FAIL (badge p v).
Proof.
  intros Hp Hv. unfold badge.
  destruct (str_eqb v NEXT_RELEASE) eqn:Hnext.
  - apply str_eqb_eq in Hnext. subst v. apply not_occurs_check.
    unfold unlinked_badge.
    destruct Hp as [Hp|Hp].
    + rewrite (contains_nocase_fold MUST_FAIL _
        (unlinked_badge (py "Until") NEXT_RELEASE)); [reflexivity|].
      unfold unlinked_badge. now rewrite !map_app, Hp.
    + rewrite (contains_nocase_fold MUST_FAIL _
        (unlinked_badge (py "Since") NEXT_RELEASE)); [reflexivity|].
      unfold unlinked_badge. now rewrite !map_app, Hp.
  - unfold linked_badge.
    set (x1 := py "<span class=" ++ [QUOTE] ++ py "badge" ++ [QUOTE]
                 ++ py ">[" ++ p ++ [58%N]).
    replace (py "<span class=" ++ [QUOTE] ++ py "badge" ++ [QUOTE]
               ++ py ">[" ++ p ++ py ": " ++ v
               ++ py "](https://github.com/YaLTeR/niri/releases/tag/v" ++ v
               ++ py ")</span>")
      with (x1 ++ 32%N :: v ++ 93%N
              :: py "(https://github.com/YaLTeR/niri/releases/tag/"
              ++ 118%N :: v ++ 41%N :: py "</span>")
      by (subst x1; now rewrite <- !app_assoc).
    intros H.
    apply occurs_app_break in H as [H|H]; [| |reflexivity].
    + revert H. apply not_occurs_check. subst x1.
      destruct Hp as [Hp|Hp].
      * rewrite (contains_nocase_fold MUST_FAIL _
          (py "<span class=" ++ [QUOTE] ++ py "badge" ++ [QUOTE]
             ++ py ">[" ++ py "Until" ++ [58%N])); [reflexivity|].
        now rewrite !map_app, Hp.
      * rewrite (contains_nocase_fold MUST_FAIL _
          (py "<span class=" ++ [QUOTE] ++ py "badge" ++ [QUOTE]
             ++ py ">[" ++ py "Since" ++ [58%N])); [reflexivity|].
        now rewrite !map_app, Hp.
    + apply occurs_app_break in H as [H|H]; [tauto| |reflexivity].
      apply occurs_app_break in H as [H|H]; [| |reflexivity].
      * revert H. now apply not_occurs_check.
      * apply occurs_app_break in H as [H|H]; [tauto| |reflexivity].
        revert H. now apply not_occurs_check.
Qed.

Lemma not_occurs_suffix (p s : str) (i : nat) :
  ~ occurs p s -> ~ occurs p (skipn i s).
Proof. intros H Hs. apply H. now apply occurs_suffix in Hs. Qed.

Lemma scan_strip_clean (w x : str) (y : codepoint) :
  breaks y MUST_FAIL = true ->
  ~ occurs MUST_FAIL w ->
  scan strip_at 0 (w ++ y :: x) = w ++ y :: scan strip_at 0 x.
Proof.
  intros Hy Hw. rewrite (scan_app_none _ w).
  - f_equal. apply scan_miss. unfold strip_at.
    rewrite <- (app_nil_l (y :: x)), starts_nocase_break by exact Hy.
    reflexivity.
  - intros i Hi. unfold strip_at.
    rewrite skipn_app_le, starts_nocase_break by (try lia; exact Hy).
    now rewrite not_occurs_skipn.
Qed.

Lemma badge_last (p v : str) : exists w, badge p v = w ++ [62%N].
Proof.
  unfold badge, unlinked_badge, linked_badge.
  destruct (str_eqb v NEXT_RELEASE).
  - change (py "</span>") with (py "</span" ++ [62%N]).
    rewrite !app_assoc. eexists. reflexivity.
  - change (py ")</span>") with (py ")</span" ++ [62%N]).
    rewrite !app_assoc. eexists. reflexivity.
Qed.

Lemma scan_strip_badge (p v x : str) :
  eq_nocase (py "Until") p \/ eq_nocase (py "Since") p ->
  ~ occurs MUST_FAIL v ->
  scan strip_at 0 (badge p v ++ x) = badge p v ++ scan strip_at 0 x.
Proof.
  intros Hp Hv. pose proof (badge_clean p v Hp Hv) as Hclean.
  destruct (badge_last p v) as [w Hw]. rewrite Hw in *.
  rewrite <- !app_assoc. cbn [app].
  apply scan_strip_clean; [reflexivity|].
  intros H. apply Hclean. now apply occurs_app_l.
Qed.

(** Where [,must-fail] does not occur, it does not occur after
    rendering either: the stripper leaves the rendered text as it is. *)
Lemma scan_strip_scan_badge (l : str) :
  ~ occurs MUST_FAIL l ->
  scan strip_at 0 (scan badge_at 0 l) = scan badge_at 0 l.
Proof.
  remember (length l) as n eqn:Hn. revert l Hn.
  induction n as [n IH] using lt_wf_ind. intros l Hn Hl.
  destruct l as [|ch l].
  - now rewrite (scan_nil _ badge_at_len), (scan_nil _ strip_at_len).
  - destruct (badge_parts (ch :: l)) as [[p v]|] eqn:Hs.
    + destruct (badge_parts_spec _ _ _ Hs) as (o & c & rest & E & Ha & Hf).
      rewrite E in *. rewrite annotation_assoc.
      rewrite (scan_hit _ badge_at_len _ rest (badge p v))
        by now apply badge_at_hit.
      assert (~ occurs MUST_FAIL rest) as Hrest.
      { intros H. apply Hl. rewrite annotation_assoc. now apply occurs_app_r. }
      assert (~ occurs MUST_FAIL v) as Hv.
      { intros H. apply Hl.
        replace (o ++ p ++ py ": " ++ v ++ c ++ rest)
          with ((o ++ p ++ py ": ") ++ v ++ c ++ rest)
          by now rewrite <- !app_assoc.
        now apply occurs_app_r, occurs_app_l. }
      pose proof (annotation_length _ _ _ _ Ha) as Hlen.
      destruct Ha as (_ & Hp & _).
      rewrite scan_strip_badge by assumption. f_equal.
      apply (IH (length rest)); [|reflexivity|exact Hrest].
      subst n. rewrite annotation_assoc, length_app, Hlen. lia.
    + rewrite scan_miss by (unfold badge_at; now rewrite Hs).
      rewrite scan_miss.
      * f_equal. apply (IH (length l)); [subst n; cbn; lia | reflexivity |].
        apply (not_occurs_suffix _ _ 1 Hl).
      * unfold strip_at.
        assert (starts_nocase MUST_FAIL (ch :: scan badge_at 0 l) = false) as ->;
          [|reflexivity].
        rewrite <- (scan_miss badge_at ch l)
          by (unfold badge_at; now rewrite Hs).
        rewrite starts_scan_badge by reflexivity.
        apply (not_occurs_skipn _ _ 0 Hl).
Qed.

(** ** Texts without [<] *)

Lemma occurs_close_lt (l : str) : occurs SUP_CLOSE l -> In 60%N l.
Proof.
  intros (pre & r & -> & w & rest & -> & Hw).
  apply in_or_app. right. apply in_or_app. left.
  unfold eq_nocase in Hw. destruct w as [|c w]; [discriminate|].
  cbn in Hw. injection Hw as Hc _. left.
  unfold casefold in Hc. split_tests; lia.
Qed.

Lemma scan_strip_in (x : codepoint) (l : str) (n : nat) :
  In x (scan strip_at n l) -> In x l.
Proof.
  revert n. induction l as [|c l IH]; intros n.
  - now rewrite (scan_nil _ strip_at_len).
  - cbn [scan]. destruct n as [|n].
    + unfold strip_at at 1.
      destruct (starts_nocase MUST_FAIL (c :: l)).
      * cbn [app]. intros H. right. now apply IH in H.
      * intros [H|H]; [now left | right; now apply IH in H].
    + intros H. right. now apply IH in H.
Qed.

(** On one text the two hooks commute when [,must-fail] does not occur
    in it or when it has no [<]. *)
Lemma separate_commute (l : str) :
  separate l = true ->
  scan badge_at 0 (scan strip_at 0 l) = scan strip_at 0 (scan badge_at 0 l).
Proof.
  unfold separate. intros H. apply orb_true_iff in H as [H|H];
    apply negb_true_iff in H.
  - apply not_occurs_check in H.
    rewrite scan_strip_scan_badge by exact H. f_equal.
    apply (scan_none _ strip_at_len). intros i. unfold strip_at.
    now rewrite not_occurs_skipn.
  - assert (~ In 60%N l) as Hl.
    { intros Hin.
      assert (existsb (N.eqb 60) l = true) as Ht; [|congruence].
      apply existsb_exists. exists 60%N. split; [exact Hin | apply N.eqb_refl]. }
    rewrite (scan_badge_no_close l)
      by (intros Hocc; now apply occurs_close_lt in Hocc).
    apply scan_badge_no_close. intros Hocc.
    apply occurs_close_lt, scan_strip_in in Hocc. contradiction.
Qed.

(** ** Line by line *)

Lemma lines_cases (s : str) :
  lines s = [s] \/
  exists l s', s = l ++ NEWLINE :: s' /\ lines s = l :: lines s'.
Proof.
  induction s as [|c s IH]; [now left|].
  cbn [lines]. destruct (N.eqb_spec c NEWLINE) as [->|Hc].
  - right. now exists [], s.
  - destruct IH as [->|(l & s' & -> & ->)].
    + now left.
    + right. now exists (c :: l), s'.
Qed.

Lemma commute_by_lines (s : str) :
  forallb separate (lines s) = true ->
  scan badge_at 0 (scan strip_at 0 s) = scan strip_at 0 (scan badge_at 0 s).
Proof.
  remember (length s) as n eqn:Hn. revert s Hn.
  induction n as [n IH] using lt_wf_ind. intros s Hn.
  destruct (lines_cases s) as [->|(l & s' & -> & ->)]; cbn [forallb].
  - rewrite andb_true_r. apply separate_commute.
  - intros H. apply andb_true_iff in H as [Hl Hs'].
    repeat (rewrite scan_strip_newline || rewrite scan_badge_newline).
    rewrite (separate_commute l Hl). do 2 f_equal.
    apply (IH (length s')); [|reflexivity|exact Hs'].
    subst n. rewrite length_app. cbn [length]. lia.
Qed.

(** ** What a pass keeps and what it changes *)

Lemma subseq_refl (s : str) : subseq s s.
Proof. induction s; now constructor. Qed.

Lemma subseq_skipn (s : str) (n : nat) : subseq (skipn n s) s.
Proof.
  revert n. induction s as [|c s IH]; intros [|n]; cbn [skipn];
    try apply subseq_refl.
  apply subseq_drop, IH.
Qed.

Lemma deleted_all_subseq (p s out : str) :
  deleted_all p s out -> subseq out s.
Proof.
  induction 1 as [|w rest out _ _ IH|c s out _ _ IH].
  - constructor.
  - induction w as [|c w IHw]; [exact IH|]. cbn [app]. now apply subseq_drop.
  - now apply subseq_keep.
Qed.

(** The number of characters a pass deletes. *)
Lemma deleted_all_length (s out : str) :
  deleted_all MUST_FAIL s out ->
  exists k, length s = length out + 10 * k /\
            (k = 0 <-> ~ occurs MUST_FAIL s).
Proof.
  induction 1 as [|w rest out Hw _ (k & Hk & Hz)|c s out Hc _ (k & Hk & Hz)].
  - exists 0. split; [reflexivity|]. split; [|reflexivity].
    intros _. apply not_occurs_check. reflexivity.
  - exists (S k). rewrite length_app, <- (eq_nocase_length _ _ Hw), Hk.
    change (length MUST_FAIL) with 10. split; [lia|].
    split; [discriminate|]. intros Hno. exfalso. apply Hno.
    exists [], (w ++ rest). split; [reflexivity|]. now exists w, rest.
  - exists k. cbn [length]. split; [lia|]. rewrite Hz. split.
    + intros Hs (pre & r & E & Hr). destruct pre as [|c' pre]; cbn in E.
      * subst r. contradiction.
      * injection E as -> ->. apply Hs. now exists pre, r.
    + intros Hno Hs. apply Hno. now apply (occurs_app_r _ [c]).
Qed.

Lemma badge_length (p v : str) :
  length p = 5 -> 34 + length v <= length (badge p v).
Proof.
  intros Hp. unfold badge, unlinked_badge, linked_badge.
  destruct (str_eqb v NEXT_RELEASE); rewrite !length_app, Hp; cbn; lia.
Qed.

Lemma badge_at_longer (s t : str) (n : nat) :
  badge_at s = Some (t, n) -> n < length t.
Proof.
  unfold badge_at. destruct (badge_parts s) as [[p v]|] eqn:H; [|discriminate].
  intros [= <- <-].
  apply badge_parts_spec in H as (o & c & rest & _ & (_ & Hp & _) & _).
  assert (length p = 5)
    by (destruct Hp as [Hp|Hp]; now apply eq_nocase_length in Hp).
  pose proof (badge_length p v). lia.
Qed.

Lemma scan_badge_length (s : str) (n : nat) :
  length s - n <= length (scan badge_at n s).
Proof.
  revert n. induction s as [|c s IH]; intros n; [cbn; lia|].
  cbn [scan]. destruct n as [|n].
  - destruct (badge_at (c :: s)) as [[t [|k]]|] eqn:Hc.
    + apply badge_at_len in Hc. lia.
    + apply badge_at_longer in Hc. rewrite length_app. specialize (IH k).
      cbn [length]. lia.
    + specialize (IH 0). cbn [length]. lia.
  - specialize (IH n). cbn [length]. lia.
Qed.

Lemma scan_badge_grows (s : str) :
  contains_badge s = true -> length s < length (scan badge_at 0 s).
Proof.
  induction s as [|c s IH]; cbn [contains_badge].
  - destruct (badge_parts []) eqn:H; [discriminate H | discriminate].
  - destruct (badge_parts (c :: s)) as [[p v]|] eqn:Hc.
    + intros _.
      assert (badge_at (c :: s) = Some (badge p v, S (17 + length v))) as Hat
          by (unfold badge_at; now rewrite Hc).
      cbn [scan]. rewrite Hat. apply badge_at_longer in Hat.
      rewrite length_app.
      pose proof (scan_badge_length s (17 + length v)).
      cbn [length]. lia.
    + intros H. apply IH in H.
      rewrite scan_miss by (unfold badge_at; now rewrite Hc).
      cbn [length]. lia.
Qed.

Lemma scan_badge_lt_free (a b : str) :
  ~ In 60%N a ->
  scan badge_at 0 (a ++ b) = a ++ scan badge_at 0 b.
Proof.
  intros Ha. induction a as [|c a IH]; [reflexivity|].
  cbn [app]. rewrite scan_miss.
  - f_equal. apply IH. intros H. apply Ha. now right.
  - destruct (badge_at (c :: a ++ b)) as [[t n]|] eqn:H; [|reflexivity].
    apply badge_at_head in H as (s' & t' & [= -> _] & _).
    exfalso. apply Ha. now left.
Qed.

Lemma strip_passes_clean (n : nat) (s : str) :
  ~ occurs MUST_FAIL s -> strip_passes n s = Ok s.
Proof.
  intros H. induction n as [|n IH]; [reflexivity|].
  cbn [strip_passes]. apply stripper_fixed_iff in H. now rewrite H.
Qed.

(** ** Text in front of an annotation *)

Lemma badge_parts_opens (s : str) :
  badge_parts s =
  if opens s then
    option_map (fun v => (firstn 5 (skipn 5 s), v)) (find_close (skipn 12 s))
  else None.
Proof.
  unfold badge_parts, opens. cbv zeta. rewrite !skipn_skipn. cbn [Nat.add].
  destruct (starts_nocase SUP_OPEN s); [|reflexivity].
  destruct (starts_nocase (py "Until") (skipn 5 s)
            || starts_nocase (py "Since") (skipn 5 s)); [|reflexivity].
  destruct (starts_nocase (py ": ") (skipn 10 s)); [|reflexivity].
  cbn [andb]. destruct (find_close (skipn 12 s)); reflexivity.
Qed.

Lemma opens_length (s : str) : opens s = true -> 12 <= length s.
Proof.
  unfold opens. intros H. apply andb_true_iff in H as [_ H].
  apply starts_nocase_length in H. rewrite length_skipn in H.
  change (length (py ": ")) with 2 in H. lia.
Qed.

Lemma opens_tail (c : codepoint) (a t : str) :
  opens ((c :: a) ++ 60%N :: t) = opens (c :: a).
Proof.
  unfold opens. change SUP_OPEN with (60%N :: py "sup>").
  rewrite starts_nocase_break_cons by reflexivity.
  destruct (starts_nocase (60%N :: py "sup>") (c :: a)) eqn:H0; [|reflexivity].
  apply starts_nocase_length in H0. change (length (60%N :: py "sup>")) with 5 in H0.
  cbn [andb]. rewrite (skipn_app_le _ 5) by exact H0.
  rewrite !starts_nocase_break by reflexivity.
  destruct (starts_nocase (py "Until") (skipn 5 (c :: a))
            || starts_nocase (py "Since") (skipn 5 (c :: a))) eqn:H1;
    [|reflexivity].
  assert (10 <= length (c :: a)) as Hl.
  { apply orb_true_iff in H1 as [H1|H1];
      apply starts_nocase_length in H1; rewrite length_skipn in H1;
      [change (length (py "Until")) with 5 in H1
      |change (length (py "Since")) with 5 in H1]; lia. }
  cbn [andb]. rewrite (skipn_app_le _ 10) by exact Hl.
  now rewrite starts_nocase_break by reflexivity.
Qed.

(** A version that ends inside [t], at a closing tag or at a newline,
    ends there whatever follows [t]. *)
Lemma find_close_ext (t x : str) :
  existsb (N.eqb NEWLINE) t || contains_nocase SUP_CLOSE t = true ->
  find_close (t ++ x) = find_close t.
Proof.
  induction t as [|c t IH]; [discriminate|].
  intros H. cbn [app find_close].
  destruct (starts_nocase SUP_CLOSE (c :: t)) eqn:Hs.
  - now rewrite (app_comm_cons t x c), (starts_nocase_app _ _ x Hs).
  - destruct (starts_nocase SUP_CLOSE (c :: t ++ x)) eqn:Hx.
    + exfalso.
      assert (length (c :: t) < length SUP_CLOSE) as Hshort.
      { destruct (Nat.le_gt_cases (length SUP_CLOSE) (length (c :: t)))
          as [Hle|Hgt]; [|exact Hgt].
        rewrite (app_comm_cons t x c), starts_nocase_app_le in Hx by exact Hle.
        congruence. }
      apply orb_true_iff in H as [H|H].
      * apply existsb_exists in H as (y & Hin & Hy).
        apply N.eqb_eq in Hy. subst y.
        apply in_split in Hin as (t1 & t2 & E).
        rewrite (app_comm_cons t x c), E, <- app_assoc in Hx. cbn [app] in Hx.
        rewrite starts_nocase_break in Hx by reflexivity.
        apply starts_nocase_length in Hx.
        rewrite E, length_app in Hshort. cbn [length] in Hshort. lia.
      * apply contains_nocase_spec in H as (pre & r & E & Hr).
        apply occurs_at_starts, starts_nocase_length in Hr.
        rewrite E, length_app in Hshort. lia.
    + destruct (N.eqb_spec c NEWLINE) as [->|Hc]; [reflexivity|].
      rewrite IH; [reflexivity|].
      cbn [existsb contains_nocase] in H. rewrite Hs in H.
      destruct (N.eqb_spec NEWLINE c) as [E|_]; [congruence|].
      exact H.
Qed.

Lemma badge_parts_closed_tail (c : codepoint) (a t : str) :
  negb (opens (c :: a))
  || existsb (N.eqb NEWLINE) (skipn 12 (c :: a))
  || contains_nocase SUP_CLOSE (skipn 12 (c :: a)) = true ->
  badge_parts ((c :: a) ++ 60%N :: t) = badge_parts (c :: a).
Proof.
  intros H. rewrite !badge_parts_opens, opens_tail.
  destruct (opens (c :: a)) eqn:Ho; [|reflexivity].
  apply opens_length in Ho. cbn [negb orb] in H.
  rewrite (skipn_app_le _ 12), (skipn_app_le _ 5) by lia.
  rewrite firstn_app_le by (rewrite length_skipn; lia).
  now rewrite find_close_ext by exact H.
Qed.

(** Text in which no annotation is left open is rendered on its own,
    whatever annotation follows it. *)
Lemma scan_badge_none_open (pre t : str) (n : nat) :
  none_open pre = true ->
  n <= length pre ->
  scan badge_at n (pre ++ 60%N :: t) =
  scan badge_at n pre ++ scan badge_at 0 (60%N :: t).
Proof.
  revert n. induction pre as [|c pre IH]; intros n Hopen Hn.
  - cbn in Hn. assert (n = 0) as -> by lia.
    now rewrite (scan_nil _ badge_at_len).
  - cbn [none_open] in Hopen. apply andb_true_iff in Hopen as [Hhead Htail].
    cbn [app scan]. destruct n as [|n].
    + assert (badge_at (c :: pre ++ 60%N :: t) = badge_at (c :: pre)) as ->.
      { unfold badge_at.
        now rewrite (app_comm_cons pre (60%N :: t) c), badge_parts_closed_tail. }
      destruct (badge_at (c :: pre)) as [[r [|k]]|] eqn:Hf.
      * apply badge_at_len in Hf. lia.
      * apply badge_at_len in Hf. cbn in Hf.
        rewrite IH by (try assumption; lia). now rewrite app_assoc.
      * rewrite IH by (try assumption; lia). reflexivity.
    + apply IH; [exact Htail | cbn in Hn; lia].
Qed.

Lemma scan_badge_after (pre o p v c rest : str) :
  none_open pre = true ->
  annotation o p v c -> first_close v c ->
  scan badge_at 0 (pre ++ (o ++ p ++ py ": " ++ v ++ c) ++ rest) =
  scan badge_at 0 pre ++ badge p v ++ scan badge_at 0 rest.
Proof.
  intros Hpre Ha Hf.
  rewrite <- (scan_hit _ badge_at_len (o ++ p ++ py ": " ++ v ++ c) rest
                (badge p v))
    by now apply badge_at_hit.
  destruct Ha as (Ho & _). destruct (open_tag_head o Ho) as [o' ->].
  cbn [app]. apply scan_badge_none_open; [exact Hpre | lia].
Qed.

(** * The claims *)

(** C1: for every match of the badge pattern that [re.sub] takes in the
    page text (from left to right, without overlap), the renderer puts
    the badge of the captured preposition and version in its place, the
    unlinked badge when the version is exactly [next release] and the
    linked badge, with the version verbatim in the URL, otherwise; the
    text between matches is kept.  Scenarios 3 and 4 of the
    specification are the two closed equations. *)
Theorem badge_renderer_replaces_matches :
  (forall s out, BadgeRenderer s = Ok out <-> rendered s out) /\
  (forall p v,
      badge p v =
      if str_eqb v (py "next release") then
        py "<span class=" ++ [QUOTE] ++ py "badge" ++ [QUOTE] ++ py ">"
          ++ p ++ py ": " ++ v ++ py "</span>"
      else
        py "<span class=" ++ [QUOTE] ++ py "badge" ++ [QUOTE] ++ py ">["
          ++ p ++ py ": " ++ v
          ++ py "](https://github.com/YaLTeR/niri/releases/tag/v" ++ v
          ++ py ")</span>") /\
  BadgeRenderer (py "<sup>Since: 0.1.0</sup>") =
    Ok (py "<span class=" ++ [QUOTE] ++ py "badge" ++ [QUOTE]
          ++ py ">[Since: 0.1.0](https://github.com/YaLTeR/niri/releases/tag/v0.1.0)</span>") /\
  BadgeRenderer (py "<sup>Until: next release</sup>") =
    Ok (py "<span class=" ++ [QUOTE] ++ py "badge" ++ [QUOTE]
          ++ py ">Until: next release</span>").
Proof.
  split; [|split; [|split]].
  - intros s out. rewrite renderer_scan. split.
    + intros [= <-]. apply scan_rendered.
    + intros H. f_equal. symmetry. now apply rendered_scan.
  - reflexivity.
  - vm_compute. reflexivity.
  - vm_compute. reflexivity.
Qed.

Lemma badge_renderer_replaces_matches_witness :
  rendered (py "<sup>Since: 0.1.0</sup>")
    (py "<span class=" ++ [QUOTE] ++ py "badge" ++ [QUOTE]
       ++ py ">[Since: 0.1.0](https://github.com/YaLTeR/niri/releases/tag/v0.1.0)</span>").
Proof.
  apply (proj1 badge_renderer_replaces_matches). vm_compute. reflexivity.
Defined.

(** C2: the stripper returns its input with every occurrence of
    [,must-fail] up to case deleted, the occurrences taken from left to
    right without overlap, and no other character altered; this holds
    anywhere in the text: [PYTHON,MUST-FAIL] gives [PYTHON]. *)
Theorem stripper_deletes_every_occurrence :
  (forall s out,
      AnnotationStripper s = Ok out <-> deleted_all (py ",must-fail") s out) /\
  AnnotationStripper (py "PYTHON,MUST-FAIL") = Ok (py "PYTHON").
Proof.
  split.
  - intros s out. rewrite stripper_scan. fold MUST_FAIL. split.
    + intros [= <-]. apply scan_deleted_all.
    + intros H. f_equal. symmetry. now apply deleted_all_scan.
  - vm_compute. reflexivity.
Qed.

Lemma stripper_deletes_every_occurrence_witness :
  deleted_all (py ",must-fail") (py "```python,must-fail") (py "```python").
Proof.
  apply (proj1 stripper_deletes_every_occurrence). vm_compute. reflexivity.
Defined.

(** C3, counterexample: [,must-fail] inside a tag.  Stripped first, the
    text becomes an annotation and is rendered; rendered first, it is
    no annotation, and the stripper leaves the bare annotation. *)
Lemma hooks_do_not_commute :
  (a <- AnnotationStripper (py "<s,must-failup>Since: 1</sup>") ;;
   BadgeRenderer a) =
    Ok (py "<span class=" ++ [QUOTE] ++ py "badge" ++ [QUOTE]
          ++ py ">[Since: 1](https://github.com/YaLTeR/niri/releases/tag/v1)</span>") /\
  (b <- BadgeRenderer (py "<s,must-failup>Since: 1</sup>") ;;
   AnnotationStripper b) =
    Ok (py "<sup>Since: 1</sup>").
Proof. split; vm_compute; reflexivity. Qed.

(** C3, as the code has it: the two hooks commute on every text in
    which each line either holds no occurrence of [,must-fail] up to
    case or holds no [<]; so they do when the fence annotations and the
    badge annotations stand on different lines. *)
Theorem hooks_commute_on_separate_lines (s : str) :
  forallb separate (lines s) = true ->
  (a <- AnnotationStripper s ;; BadgeRenderer a) =
  (b <- BadgeRenderer s ;; AnnotationStripper b).
Proof.
  intros H. rewrite (stripper_scan s), (renderer_scan s). cbn [bind].
  rewrite renderer_scan, stripper_scan. f_equal.
  now apply commute_by_lines.
Qed.

Lemma hooks_commute_on_separate_lines_witness :
  (a <- AnnotationStripper
          (py "```rust,must-fail" ++ NEWLINE :: py "x <sup>Since: 25.01</sup>") ;;
   BadgeRenderer a) =
  (b <- BadgeRenderer
          (py "```rust,must-fail" ++ NEWLINE :: py "x <sup>Since: 25.01</sup>") ;;
   AnnotationStripper b).
Proof.
  apply hooks_commute_on_separate_lines. vm_compute. reflexivity.
Defined.

(** C4, counterexample: deleting an occurrence can splice a new one
    together, and the second pass deletes it. *)
Lemma stripper_not_idempotent :
  AnnotationStripper (py ",must,must-fail-fail") = Ok (py ",must-fail") /\
  (out <- AnnotationStripper (py ",must,must-fail-fail") ;;
   AnnotationStripper out) = Ok [].
Proof. split; vm_compute; reflexivity. Qed.

(** C4, as the code has it: the stripper applied twice equals the
    stripper applied once exactly when the first result has no
    occurrence of [,must-fail] up to case left. *)
Theorem stripper_twice (s : str) :
  (out <- AnnotationStripper s ;; AnnotationStripper out) =
    AnnotationStripper s <->
  exists out, AnnotationStripper s = Ok out /\ ~ occurs (py ",must-fail") out.
Proof.
  rewrite (stripper_scan s). cbn [bind]. fold MUST_FAIL.
  rewrite stripper_fixed_iff. split.
  - intros H. now exists (scan strip_at 0 s).
  - intros (out & [= <-] & H). exact H.
Qed.

(** C5: on a text in which [,must-fail] does not occur up to case the
    stripper returns the text as it is. *)
Theorem stripper_noop_without_occurrence (s : str) :
  ~ occurs (py ",must-fail") s -> AnnotationStripper s = Ok s.
Proof. apply stripper_fixed_iff. Qed.

Lemma stripper_noop_without_occurrence_witness :
  ~ occurs (py ",must-fail") (py "```python") /\
  AnnotationStripper (py "```python") = Ok (py "```python").
Proof.
  assert (~ occurs (py ",must-fail") (py "```python")) as H.
  { rewrite <- contains_nocase_spec. vm_compute. discriminate. }
  split; [exact H|].
  exact (stripper_noop_without_occurrence (py "```python") H).
Defined.

(** C6: on a text in which no annotation [<sup>Until: ...</sup>] or
    [<sup>Since: ...</sup>] occurs (tags and preposition up to case, the
    version on one line) the renderer returns the text as it is. *)
Theorem renderer_noop_without_annotation (s : str) :
  ~ has_annotation s -> BadgeRenderer s = Ok s.
Proof.
  intros H. rewrite renderer_scan. f_equal.
  apply (scan_none _ badge_at_len). intros i.
  now apply no_annotation_skipn.
Qed.

Lemma renderer_noop_without_annotation_witness :
  ~ has_annotation (py "x<sup>2</sup> and <sup>Since 1.0</sup>") /\
  BadgeRenderer (py "x<sup>2</sup> and <sup>Since 1.0</sup>") =
    Ok (py "x<sup>2</sup> and <sup>Since 1.0</sup>").
Proof.
  assert (~ has_annotation (py "x<sup>2</sup> and <sup>Since 1.0</sup>")) as H.
  { rewrite <- contains_badge_spec. vm_compute. discriminate. }
  split; [exact H|].
  exact (renderer_noop_without_annotation _ H).
Defined.

(** C7: the text each hook returns depends on the markdown argument
    only: any two choices of [page], [config] and [files], of any types,
    give the same result. *)
Theorem hooks_ignore_context
    (Page1 Config1 Files1 Page2 Config2 Files2 : Type) (markdown : str)
    (page1 : Page1) (config1 : Config1) (files1 : Files1)
    (page2 : Page2) (config2 : Config2) (files2 : Files2) :
  RemoveMustFail.on_page_markdown markdown page1 config1 files1 =
  RemoveMustFail.on_page_markdown markdown page2 config2 files2 /\
  Shortcodes.on_page_markdown markdown page1 config1 files1 =
  Shortcodes.on_page_markdown markdown page2 config2 files2.
Proof. split; reflexivity. Qed.

(** C8: both hooks return a text on every input, the empty text and
    texts without a match included; the [IndexError] of [replace] is
    never raised. *)
Theorem hooks_are_total :
  (forall s, exists out, AnnotationStripper s = Ok out) /\
  (forall s, exists out, BadgeRenderer s = Ok out) /\
  AnnotationStripper [] = Ok [] /\
  BadgeRenderer [] = Ok [].
Proof.
  repeat split.
  - intros s. eexists. apply stripper_scan.
  - intros s. eexists. apply renderer_scan.
Qed.

(** C9: an annotation whose tags or preposition are not in the
    canonical case is replaced all the same, wherever it stands in the
    text, and the badge shows the preposition and the version as they
    are written: [<sup>since: 1.0</sup>] gives a badge that reads
    [since: 1.0], [<SUP>UNTIL: 1.0</SUP>] one that reads [UNTIL: 1.0].
    The text in front of the annotation is any text in which no
    annotation is left open (an opening tag with a preposition that
    neither a newline nor a closing tag follows would take the
    annotation into its own version); it and the text behind are
    rendered on their own. *)
Theorem renderer_keeps_casing :
  (forall pre o p v c rest,
      none_open pre = true ->
      annotation o p v c -> first_close v c ->
      exists out1 out2,
        BadgeRenderer pre = Ok out1 /\
        BadgeRenderer rest = Ok out2 /\
        BadgeRenderer (pre ++ o ++ p ++ py ": " ++ v ++ c ++ rest) =
          Ok (out1 ++ badge p v ++ out2)) /\
  BadgeRenderer (py "<sup>since: 1.0</sup>") =
    Ok (py "<span class=" ++ [QUOTE] ++ py "badge" ++ [QUOTE]
          ++ py ">[since: 1.0](https://github.com/YaLTeR/niri/releases/tag/v1.0)</span>") /\
  BadgeRenderer (py "<SUP>UNTIL: 1.0</SUP>") =
    Ok (py "<span class=" ++ [QUOTE] ++ py "badge" ++ [QUOTE]
          ++ py ">[UNTIL: 1.0](https://github.com/YaLTeR/niri/releases/tag/v1.0)</span>") /\
  BadgeRenderer (py "x <b>y</b> <sup>since: 1.0</sup> z") =
    Ok (py "x <b>y</b> <span class=" ++ [QUOTE] ++ py "badge" ++ [QUOTE]
          ++ py ">[since: 1.0](https://github.com/YaLTeR/niri/releases/tag/v1.0)</span> z").
Proof.
  split; [|repeat split; vm_compute; reflexivity].
  intros pre o p v c rest Hpre Ha Hf.
  exists (scan badge_at 0 pre), (scan badge_at 0 rest).
  rewrite !renderer_scan. repeat split. f_equal.
  rewrite annotation_assoc. now apply scan_badge_after.
Qed.

Lemma renderer_keeps_casing_witness :
  exists out1 out2,
    BadgeRenderer (py "a <sup>Since: 1</sup> <b> ") = Ok out1 /\
    BadgeRenderer (py " and more") = Ok out2 /\
    BadgeRenderer
      (py "a <sup>Since: 1</sup> <b> "
         ++ py "<SUP>" ++ py "sINCE" ++ py ": " ++ py "25.01" ++ py "</Sup>"
         ++ py " and more") =
      Ok (out1 ++ badge (py "sINCE") (py "25.01") ++ out2).
Proof.
  apply (proj1 renderer_keeps_casing).
  - vm_compute. reflexivity.
  - repeat split.
    + right. reflexivity.
    + cbn. intros H. repeat (destruct H as [H|H]; [discriminate H|]). exact H.
  - unfold first_close. rewrite <- contains_nocase_spec. vm_compute.
    discriminate.
Defined.

(** C10: the version does not run over a newline.  Where an opening
    tag with [Until: ] or [Since: ] is followed by a newline before any
    closing tag, the renderer copies it as it is, with the text up to
    that newline, what stands before it and what follows the newline
    being rendered on their own. *)
Theorem renderer_stops_at_newline (pre o p body rest : str) :
  eq_nocase (py "<sup>") o ->
  eq_nocase (py "Until") p \/ eq_nocase (py "Since") p ->
  ~ occurs (py "</sup>") body ->
  exists out1 out2,
    BadgeRenderer pre = Ok out1 /\
    BadgeRenderer rest = Ok out2 /\
    BadgeRenderer (pre ++ o ++ p ++ py ": " ++ body ++ NEWLINE :: rest) =
      Ok (out1 ++ o ++ p ++ py ": " ++ body ++ NEWLINE :: out2).
Proof.
  intros Ho Hp Hbody.
  exists (scan badge_at 0 pre), (scan badge_at 0 rest).
  rewrite !renderer_scan. repeat split. f_equal.
  replace (pre ++ o ++ p ++ py ": " ++ body ++ NEWLINE :: rest)
    with ((pre ++ o ++ p ++ py ": " ++ body) ++ NEWLINE :: rest)
    by now rewrite <- !app_assoc.
  rewrite scan_badge_newline, scan_badge_unclosed by assumption.
  now rewrite <- !app_assoc.
Qed.

Lemma renderer_stops_at_newline_witness :
  exists out1 out2,
    BadgeRenderer (py "a <sup>Since: 1</sup> ") = Ok out1 /\
    BadgeRenderer (py "</sup> b") = Ok out2 /\
    BadgeRenderer
      (py "a <sup>Since: 1</sup> " ++ py "<SUP>" ++ py "until" ++ py ": "
         ++ py "25.01 <sup>" ++ NEWLINE :: py "</sup> b") =
      Ok (out1 ++ py "<SUP>" ++ py "until" ++ py ": " ++ py "25.01 <sup>"
            ++ NEWLINE :: out2).
Proof.
  apply renderer_stops_at_newline.
  - reflexivity.
  - left. reflexivity.
  - rewrite <- contains_nocase_spec. vm_compute. discriminate.
Defined.

(** * Further properties of the two hooks *)

(** X1: a match of the badge pattern at the head of a text is an
    annotation with its first closing tag; [match.groups()] holds two
    strings, the preposition and the version as written, so [replace]
    indexes it without error and returns their badge. *)
Theorem badge_match_sound (s : str) (g : Re.groups) (n : nat) :
  Re.match_here Re.I_M Shortcodes.pattern s = Some (g, n) ->
  exists o p v c rest,
    s = o ++ p ++ py ": " ++ v ++ c ++ rest /\
    annotation o p v c /\
    first_close v c /\
    n = length (o ++ p ++ py ": " ++ v ++ c) /\
    g = [VStr p; VStr v] /\
    Shortcodes.replace g = Ok (badge p v).
Proof.
  rewrite match_here_badge.
  destruct (badge_parts s) as [[p v]|] eqn:H; [|discriminate].
  intros [= <- <-].
  apply badge_parts_spec in H as (o & c & rest & E & Ha & Hf).
  exists o, p, v, c, rest.
  split; [exact E|]. split; [exact Ha|]. split; [exact Hf|].
  split; [now rewrite (annotation_length _ _ _ _ Ha)|].
  split; [reflexivity|]. cbn. now rewrite badge_for_version_str.
Qed.

Lemma badge_match_sound_witness :
  exists o p v c rest,
    py "<SUP>until: 0.1</sup> rest" = o ++ p ++ py ": " ++ v ++ c ++ rest /\
    annotation o p v c /\
    first_close v c /\
    21 = length (o ++ p ++ py ": " ++ v ++ c) /\
    [VStr (py "until"); VStr (py "0.1")] = [VStr p; VStr v] /\
    Shortcodes.replace [VStr (py "until"); VStr (py "0.1")] = Ok (badge p v).
Proof.
  apply (badge_match_sound (py "<SUP>until: 0.1</sup> rest")).
  vm_compute. reflexivity.
Defined.

(** X2: every annotation with its first closing tag at the head of a
    text is matched by the badge pattern, whatever follows it: the
    captures are the preposition and the version, the match ends with
    the closing tag. *)
Theorem badge_match_complete (o p v c rest : str) :
  annotation o p v c ->
  first_close v c ->
  Re.match_here Re.I_M Shortcodes.pattern
    (o ++ p ++ py ": " ++ v ++ c ++ rest) =
  Some ([VStr p; VStr v], 18 + length v).
Proof.
  intros Ha Hf. rewrite match_here_badge.
  now rewrite badge_parts_hit by assumption.
Qed.

Lemma badge_match_complete_witness :
  Re.match_here Re.I_M Shortcodes.pattern
    (py "<Sup>" ++ py "SINCE" ++ py ": " ++ py "25.05" ++ py "</SUP>"
       ++ py "</sup>") =
  Some ([VStr (py "SINCE"); VStr (py "25.05")], 18 + length (py "25.05")).
Proof.
  apply badge_match_complete.
  - repeat split.
    + right. reflexivity.
    + cbn. intros H. repeat (destruct H as [H|H]; [discriminate H|]). exact H.
  - unfold first_close. rewrite <- contains_nocase_spec. vm_compute.
    discriminate.
Defined.

(** X3: the pattern of the stripper matches at the head of a text
    exactly when [,must-fail] stands there up to case; the match has
    ten characters and no capture. *)
Theorem must_fail_match (s : str) (g : Re.groups) (n : nat) :
  Re.match_here Re.I_M RemoveMustFail.pattern s = Some (g, n) <->
  g = [] /\ n = 10 /\ occurs_at (py ",must-fail") s.
Proof.
  rewrite match_here_must_fail, occurs_at_starts. fold MUST_FAIL.
  destruct (starts_nocase MUST_FAIL s); split.
  - intros [= <- <-]. auto.
  - intros (-> & -> & _). reflexivity.
  - discriminate.
  - intros (_ & _ & H). discriminate H.
Qed.

(** X4: the stripper only deletes: the text it returns is the input
    with some characters left out, in the same order. *)
Theorem stripper_only_deletes (s : str) :
  exists out, AnnotationStripper s = Ok out /\ subseq out s.
Proof.
  exists (scan strip_at 0 s). split; [apply stripper_scan|].
  apply (deleted_all_subseq MUST_FAIL), scan_deleted_all.
Qed.

(** X5: the stripper deletes ten characters for each occurrence it
    takes: the input is longer than the output by a multiple of ten,
    and by nothing exactly when [,must-fail] does not occur in it. *)
Theorem stripper_length (s : str) :
  exists out k,
    AnnotationStripper s = Ok out /\
    length s = length out + 10 * k /\
    (k = 0 <-> ~ occurs (py ",must-fail") s).
Proof.
  destruct (deleted_all_length s _ (scan_deleted_all s)) as (k & Hk & Hz).
  exists (scan strip_at 0 s), k. split; [apply stripper_scan|]. now split.
Qed.

(** X6: the stripper works line by line: a text with a newline is
    stripped by stripping what stands before the newline and what
    stands after it. *)
Theorem stripper_by_lines (a b : str) :
  AnnotationStripper (a ++ NEWLINE :: b) =
  (x <- AnnotationStripper a ;;
   y <- AnnotationStripper b ;;
   Ok (x ++ NEWLINE :: y)).
Proof.
  rewrite !stripper_scan. cbn [bind]. f_equal. apply scan_strip_newline.
Qed.

(** X7: the renderer works line by line as well: no badge is made from
    text on two lines. *)
Theorem renderer_by_lines (a b : str) :
  BadgeRenderer (a ++ NEWLINE :: b) =
  (x <- BadgeRenderer a ;;
   y <- BadgeRenderer b ;;
   Ok (x ++ NEWLINE :: y)).
Proof.
  rewrite !renderer_scan. cbn [bind]. f_equal. apply scan_badge_newline.
Qed.

(** X8: a badge is longer than the annotation it replaces, so the
    renderer never shortens a text, and it returns the text unchanged
    only when no annotation occurs in it. *)
Theorem renderer_never_shortens (s : str) :
  exists out,
    BadgeRenderer s = Ok out /\
    length s <= length out /\
    (out = s <-> ~ has_annotation s).
Proof.
  exists (scan badge_at 0 s). split; [apply renderer_scan|]. split.
  - pose proof (scan_badge_length s 0). lia.
  - split.
    + intros E H. apply contains_badge_spec, scan_badge_grows in H.
      rewrite E in H. lia.
    + intros H. apply (scan_none _ badge_at_len). intros i.
      now apply no_annotation_skipn.
Qed.

(** X9: the renderer brings no [,must-fail] into a text: where the
    annotation of the stripper does not occur in the input it does not
    occur in the rendered text. *)
Theorem renderer_adds_no_must_fail (s : str) :
  ~ occurs (py ",must-fail") s ->
  exists out, BadgeRenderer s = Ok out /\ ~ occurs (py ",must-fail") out.
Proof.
  intros H. exists (scan badge_at 0 s). split; [apply renderer_scan|].
  apply stripper_fixed_iff. rewrite stripper_scan. f_equal.
  now apply scan_strip_scan_badge.
Qed.

Lemma renderer_adds_no_must_fail_witness :
  exists out,
    BadgeRenderer (py "x,must <sup>Since: 1,2</sup>-fail") = Ok out /\
    ~ occurs (py ",must-fail") out.
Proof.
  apply renderer_adds_no_must_fail.
  rewrite <- contains_nocase_spec. vm_compute. discriminate.
Defined.

(** X10: two annotations with text without [<] between them, after
    any text in which no annotation is left open, are replaced each by
    its own badge; the text between them is copied, the text in front
    and the text behind are rendered on their own. *)
Theorem renderer_two_annotations
    (pre o1 p1 v1 c1 mid o2 p2 v2 c2 rest : str) :
  none_open pre = true ->
  annotation o1 p1 v1 c1 -> first_close v1 c1 ->
  ~ In 60%N mid ->
  annotation o2 p2 v2 c2 -> first_close v2 c2 ->
  exists out1 out2,
    BadgeRenderer pre = Ok out1 /\
    BadgeRenderer rest = Ok out2 /\
    BadgeRenderer
      (pre ++ (o1 ++ p1 ++ py ": " ++ v1 ++ c1) ++ mid
         ++ (o2 ++ p2 ++ py ": " ++ v2 ++ c2) ++ rest) =
      Ok (out1 ++ badge p1 v1 ++ mid ++ badge p2 v2 ++ out2).
Proof.
  intros Hpre Ha1 Hf1 Hmid Ha2 Hf2.
  exists (scan badge_at 0 pre), (scan badge_at 0 rest).
  rewrite !renderer_scan. repeat split. f_equal.
  rewrite scan_badge_after by assumption.
  rewrite scan_badge_lt_free by exact Hmid.
  rewrite (scan_hit _ badge_at_len _ _ (badge p2 v2))
    by now apply badge_at_hit.
  reflexivity.
Qed.

Lemma renderer_two_annotations_witness :
  exists out1 out2,
    BadgeRenderer (py "<b>x</b> <sup>Until: 0.0.1</sup>, ") = Ok out1 /\
    BadgeRenderer (py " end") = Ok out2 /\
    BadgeRenderer
      (py "<b>x</b> <sup>Until: 0.0.1</sup>, "
         ++ (py "<sup>" ++ py "Since" ++ py ": " ++ py "0.1.0" ++ py "</sup>")
         ++ py " and "
         ++ (py "<sup>" ++ py "Until" ++ py ": " ++ py "next release"
               ++ py "</sup>") ++ py " end") =
      Ok (out1 ++ badge (py "Since") (py "0.1.0") ++ py " and "
            ++ badge (py "Until") (py "next release") ++ out2).
Proof.
  apply renderer_two_annotations.
  - vm_compute. reflexivity.
  - repeat split.
    + right. reflexivity.
    + cbn. intros H. repeat (destruct H as [H|H]; [discriminate H|]). exact H.
  - unfold first_close. rewrite <- contains_nocase_spec. vm_compute.
    discriminate.
  - cbn. intros H. repeat (destruct H as [H|H]; [discriminate H|]). exact H.
  - repeat split.
    + left. reflexivity.
    + cbn. intros H. repeat (destruct H as [H|H]; [discriminate H|]). exact H.
  - unfold first_close. rewrite <- contains_nocase_spec. vm_compute.
    discriminate.
Defined.

(** X11: run again and again, the stripper comes to rest: after one
    more pass than a tenth of the length of the text, no occurrence of
    [,must-fail] is left, and a further pass changes nothing. *)
Theorem stripper_passes_settle (s : str) :
  exists out,
    strip_passes (S (length s / 10)) s = Ok out /\
    ~ occurs (py ",must-fail") out /\
    AnnotationStripper out = Ok out.
Proof.
  assert (forall n t, length t < 10 * n ->
            exists out, strip_passes n t = Ok out /\ ~ occurs MUST_FAIL out)
    as Hgen.
  { induction n as [|n IH]; intros t Ht; [lia|].
    destruct (contains_nocase MUST_FAIL t) eqn:Hc.
    - cbn [strip_passes]. rewrite stripper_scan. cbn [bind].
      destruct (deleted_all_length t _ (scan_deleted_all t)) as (k & Hk & Hz).
      apply IH. destruct k as [|k]; [|lia].
      exfalso. apply contains_nocase_spec in Hc. now apply Hz.
    - apply not_occurs_check in Hc. exists t.
      split; [now apply strip_passes_clean | exact Hc]. }
  destruct (Hgen (S (length s / 10)) s) as (out & Hout & Hclean).
  - pose proof (Nat.div_mod_eq (length s) 10).
    pose proof (Nat.mod_upper_bound (length s) 10). lia.
  - exists out. repeat split; try assumption.
    now apply stripper_fixed_iff.
Qed.
